(** * SR3: sparse relaxed regularized regression

    A shallow embedding of [pysindy/optimizers/sr3.py] and the properties of
    its alternating loop.

    Modelling conventions.
    - A Python float is an exact rational ([Qc]); rounding, infinities and
      NaN are outside the model.
    - A numpy array is a two-dimensional matrix carrying its column count, so
      that an array without rows still has a shape; a vector of responses is
      the matrix with one column.  The element-wise operations are written
      for operands of one shape, which is what the optimizer feeds them
      (numpy broadcasts or raises on others); so the model raises none of
      the errors numpy and scipy raise of their own on operands that do not
      conform, and the statements about which exceptions a run raises name
      the exceptions of the source itself or ask for conforming shapes.
    - [scipy.linalg.cho_factor] and [cho_solve] are an interface, since they
      are library code; every call to them and every emitted warning is
      recorded in a trace.
    - Methods are computations in a state-and-exception monad over the
      optimizer object: an exception keeps the mutations done before it.
    - The iterations of a fit are a run of [_reduce] on the object as
      [BaseOptimizer.fit] has prepared it.  [BaseOptimizer] is not among the
      sources, so the statements are made for every state of the object at
      entry and say where they need the history to be empty there. *)

From Stdlib Require Import String DecimalString.
From Stdlib Require Import List ZArith QArith Qcanon Qcabs Bool Lia.
Import ListNotations.

Set Implicit Arguments.
Local Open Scope Qc_scope.
Local Open Scope list_scope.

(** ** Scalars *)

Definition Qcltb (x y : Qc) : bool :=
  match x ?= y with Lt => true | _ => false end.

Definition Qcleb (x y : Qc) : bool :=
  match x ?= y with Gt => false | _ => true end.

Definition qc (n : Z) (d : positive) : Qc := Q2Qc (n # d).

Definition qsum (l : list Qc) : Qc := fold_right Qcplus 0 l.

(** ** numpy *)

Module np.

Record ndarray : Type := array { ncols : nat; rows : list (list Qc) }.

Definition shape (a : ndarray) : nat * nat := (length (rows a), ncols a).

Definition has_shape (r c : nat) (a : ndarray) : Prop :=
  length (rows a) = r /\ ncols a = c /\
  Forall (fun row => length row = c) (rows a).

Fixpoint zip_with {A B C : Type} (f : A -> B -> C)
  (l : list A) (l' : list B) : list C :=
  match l, l' with
  | a :: t, b :: t' => f a b :: zip_with f t t'
  | _, _ => []
  end.

Definition elementwise (f : Qc -> Qc) (a : ndarray) : ndarray :=
  array (ncols a) (map (map f) (rows a)).

Definition elementwise2 (f : Qc -> Qc -> Qc) (a b : ndarray) : ndarray :=
  array (ncols a) (zip_with (zip_with f) (rows a) (rows b)).

(** [a + b], [a - b], [a / s], [a ** 2], [np.abs(a)] *)
Definition add : ndarray -> ndarray -> ndarray := elementwise2 Qcplus.
Definition subtract : ndarray -> ndarray -> ndarray := elementwise2 Qcminus.
Definition true_divide (a : ndarray) (s : Qc) : ndarray :=
  elementwise (fun v => v / s) a.
Definition square : ndarray -> ndarray := elementwise (fun v => v * v).

Definition zeros_like : ndarray -> ndarray := elementwise (fun _ => 0).

(** [np.sum(a)]: every entry, all rows and columns together *)
Definition sum (a : ndarray) : Qc := qsum (concat (rows a)).

Definition item (a : ndarray) (i j : nat) : Qc := nth j (nth i (rows a) []) 0.

Definition column (a : ndarray) (j : nat) : list Qc :=
  map (fun row => nth j row 0) (rows a).

(** [a.T] *)
Definition transpose (a : ndarray) : ndarray :=
  array (length (rows a)) (map (column a) (seq 0 (ncols a))).

Definition inner (u v : list Qc) : Qc := qsum (zip_with Qcmult u v).

(** [np.dot(a, b)] for two matrices *)
Definition dot (a b : ndarray) : ndarray :=
  array (ncols b)
    (map (fun row => map (fun j => inner row (column b j)) (seq 0 (ncols b)))
       (rows a)).

(** [np.full(n, s)], a vector, and [np.diag] of a vector *)
Definition full (n : nat) (s : Qc) : list Qc := repeat s n.

Definition diag (d : list Qc) : ndarray :=
  array (length d)
    (map (fun i =>
            map (fun j => if Nat.eqb i j then nth i d 0 else 0)
              (seq 0 (length d)))
       (seq 0 (length d))).

End np.

Abbreviation ndarray := np.ndarray.

(** ** scipy.linalg

    [cho_factor a] either raises [LinAlgError] ([None]) or returns a
    factorization; [cho_solve c b] solves with it. *)

Class Linalg : Type := {
  cho_t : Type;
  cho_factor : ndarray -> option cho_t;
  cho_solve : cho_t -> ndarray -> ndarray
}.

(** The contract of the pair: a factorization of [a] solves [a . w = b]. *)
Class LinalgSolves (L : Linalg) : Prop :=
  cho_solve_solves :
    forall (n k : nat) (a b : ndarray) (c : cho_t),
      np.has_shape n n a -> np.has_shape n k b ->
      cho_factor a = Some c ->
      np.dot a (cho_solve c b) = b.

(** ** Exceptions, warnings and the trace *)

Inductive exn : Type :=
| ValueError (msg : string)
| UnknownOperator (name : string)
| LinAlgError
| ZeroDivisionError
| IndexError
| UnboundLocalError.

(** The spec's ConfigurationError names the construction-time failures. *)
Definition ConfigurationError (e : exn) : Prop :=
  match e with
  | ValueError _ | UnknownOperator _ => True
  | _ => False
  end.

Inductive category : Type := ConvergenceWarning.

Inductive event {L : Linalg} : Type :=
| Factor (a : ndarray)
| Solve (c : cho_t) (b : ndarray)
| Warn (msg : string) (cat : category).

(** The two ways out of the [for] loop: [break], and the [else] clause. *)
Inductive loop_exit : Type := Converged | Exhausted.

(** ** The optimizer object *)

Definition prox_t : Type := ndarray -> Qc -> ndarray.

Record SR3 : Type := mkSR3 {
  threshold : Qc;
  nu : Qc;
  tol : Qc;
  thresholder : string;
  prox : prox_t;
  max_iter : Z;
  (* attributes that BaseOptimizer owns *)
  iters : Z;
  history_ : list ndarray;
  coef_ : ndarray;
  coef_full_ : option ndarray
}.

Definition set_iters (s : SR3) (n : Z) : SR3 :=
  mkSR3 (threshold s) (nu s) (tol s) (thresholder s) (prox s) (max_iter s)
    n (history_ s) (coef_ s) (coef_full_ s).

Definition set_history_ (s : SR3) (h : list ndarray) : SR3 :=
  mkSR3 (threshold s) (nu s) (tol s) (thresholder s) (prox s) (max_iter s)
    (iters s) h (coef_ s) (coef_full_ s).

Definition set_coef_ (s : SR3) (v : ndarray) : SR3 :=
  mkSR3 (threshold s) (nu s) (tol s) (thresholder s) (prox s) (max_iter s)
    (iters s) (history_ s) v (coef_full_ s).

Definition set_coef_full_ (s : SR3) (w : ndarray) : SR3 :=
  mkSR3 (threshold s) (nu s) (tol s) (thresholder s) (prox s) (max_iter s)
    (iters s) (history_ s) (coef_ s) (Some w).

(** ** The state-and-exception monad *)

Record world {L : Linalg} : Type := World { self : SR3; trace : list event }.

Definition M {L : Linalg} (A : Type) : Type := world -> (exn + A) * world.

Definition ret {L : Linalg} {A : Type} (a : A) : M A := fun w => (inr a, w).

Definition raise {L : Linalg} {A : Type} (e : exn) : M A :=
  fun w => (inl e, w).

Definition bind {L : Linalg} {A B : Type} (m : M A) (k : A -> M B) : M B :=
  fun w =>
    match m w with
    | (inl e, w') => (inl e, w')
    | (inr a, w') => k a w'
    end.

Notation "x <- m ;; k" := (bind m (fun x => k))
  (at level 61, m at next level, right associativity).
Notation "m ;;; k" := (bind m (fun _ => k))
  (at level 61, right associativity).

Definition get {L : Linalg} : M SR3 := fun w => (inr (self w), w).

Definition put {L : Linalg} (s : SR3) : M unit :=
  fun w => (inr tt, World s (trace w)).

Definition emit {L : Linalg} (e : event) : M unit :=
  fun w => (inr tt, World (self w) (trace w ++ [e])).

(** [l[-k]] for [k >= 1] *)
Definition getitem_neg {L : Linalg} {A : Type} (l : list A) (k : nat) : M A :=
  match nth_error (rev l) (k - 1) with
  | Some a => ret a
  | None => raise IndexError
  end.

(** The library calls, recorded as they happen. *)
Definition call_cho_factor {L : Linalg} (a : ndarray) : M cho_t :=
  emit (Factor a) ;;;
  match cho_factor a with
  | Some c => ret c
  | None => raise LinAlgError
  end.

Definition call_cho_solve {L : Linalg} (c : cho_t) (b : ndarray) : M ndarray :=
  emit (Solve c b) ;;; ret (cho_solve c b).

Definition warnings_warn {L : Linalg} (msg : string) (cat : category)
  : M unit := emit (Warn msg cat).

(** ** pysindy.utils: the proximal operators *)

Definition sign (v : Qc) : Qc :=
  if Qcltb 0 v then 1 else if Qcltb v 0 then - (1) else 0.

Definition Qcmax (x y : Qc) : Qc := if Qcltb x y then y else x.

(** Modelled from the spec: [prox_l0] of pysindy.utils is not among the
    sources.  The hard threshold keeps [value] where [|value| >= threshold]
    and gives 0 elsewhere. *)
Definition l0 (value threshold : Qc) : Qc :=
  if Qcleb threshold (Qcabs value) then value else 0.

(** Modelled from the spec: [prox_l1] of pysindy.utils is not among the
    sources.  The soft threshold is
    [sign(value) * max(|value| - threshold, 0)]. *)
Definition l1 (value threshold : Qc) : Qc :=
  sign value * Qcmax (Qcabs value - threshold) 0.

(** Modelled from the spec: [prox_cad] of pysindy.utils is not among the
    sources.  With [a = 5 * threshold]: 0 below [threshold], [value] above
    [a], and in between the line through [(threshold, 0)] and [(a, a)]. *)
Definition cad (value threshold : Qc) : Qc :=
  let a := qc 5 1 * threshold in
  if Qcltb (Qcabs value) threshold then 0
  else if Qcltb a (Qcabs value) then value
  else sign value * (a * (Qcabs value - threshold) / (a - threshold)).

(** Modelled from the spec: the operators of pysindy.utils act on an array
    entry by entry. *)
Definition prox_l0 : prox_t := fun x t => np.elementwise (fun v => l0 v t) x.
Definition prox_l1 : prox_t := fun x t => np.elementwise (fun v => l1 v t) x.
Definition prox_cad : prox_t := fun x t => np.elementwise (fun v => cad v t) x.

(** Modelled from the spec: [get_prox] of pysindy.utils is not among the
    sources.  The registry holds l0, l1 and cad, and rejects every other
    name with a named error. *)
Definition get_prox (regularization : string) : exn + prox_t :=
  if String.eqb regularization "l0" then inr prox_l0
  else if String.eqb regularization "l1" then inr prox_l1
  else if String.eqb regularization "cad" then inr prox_cad
  else inl (UnknownOperator regularization).

(** Modelled from the spec: the names the registry holds. *)
Definition registered : list string := ["l0"; "l1"; "cad"]%string.

(** ** SR3 *)

(** Modelled from the spec: [BaseOptimizer.__init__] is not among the
    sources.  It leaves the attributes it owns empty: no iteration counted,
    no snapshot in the history, no coefficient yet. *)
Definition BaseOptimizer__init__
  : Z * list ndarray * ndarray * option ndarray :=
  (0%Z, [], np.array 0 [], None).

(** [SR3.__init__]: the guards in the order of the source, then the
    assignments; an exception leaves the caller without an instance. *)

Definition __init__ (threshold nu tol : Qc) (thresholder : string)
  (max_iter : Z) : exn + SR3 :=
  let '(iters0, history0, coef0, coef_full0) := BaseOptimizer__init__ in
  if Qcltb threshold 0 then inl (ValueError "threshold cannot be negative")
  else if Qcleb nu 0 then inl (ValueError "nu must be positive")
  else if Qcleb tol 0 then inl (ValueError "tol must be positive")
  else if (max_iter <=? 0)%Z then inl (ValueError "max_iter must be positive")
  else
    match get_prox thresholder with
    | inl e => inl e
    | inr p =>
        inr (mkSR3 threshold nu tol thresholder p max_iter
               iters0 history0 coef0 coef_full0)
    end.

Definition _update_full_coef {L : Linalg} (cho : cho_t)
  (x_transpose_y coef_sparse : ndarray) : M ndarray :=
  s <- get ;;
  let b := np.add x_transpose_y (np.true_divide coef_sparse (nu s)) in
  coef_full <- call_cho_solve cho b ;;
  s <- get ;;
  put (set_iters s (iters s + 1)) ;;;
  ret coef_full.

Definition _update_sparse_coef {L : Linalg} (coef_full : ndarray) : M ndarray :=
  s <- get ;;
  let coef_sparse := prox s coef_full (threshold s) in
  s <- get ;;
  put (set_history_ s (history_ s ++ [coef_sparse])) ;;;
  ret coef_sparse.

Definition _convergence_criterion {L : Linalg} : M Qc :=
  s <- get ;;
  this_coef <- getitem_neg (history_ s) 1 ;;
  last_coef <- (if (1 <? length (history_ s))%nat
                then getitem_neg (history_ s) 2
                else ret (np.zeros_like this_coef)) ;;
  ret (np.sum (np.square (np.subtract this_coef last_coef))).

(** The [for _ in range(...)] loop with its [break]; [n] counts what is left
    of the range, [coef_full] is unbound ([None]) until the body has run. *)
Fixpoint for_range {L : Linalg} (n : nat) (cho : cho_t)
  (x_transpose_y coef_sparse : ndarray) (coef_full : option ndarray)
  : M (loop_exit * ndarray * option ndarray) :=
  match n with
  | O => ret (Exhausted, coef_sparse, coef_full)
  | S n' =>
      coef_full' <- _update_full_coef cho x_transpose_y coef_sparse ;;
      coef_sparse' <- _update_sparse_coef coef_full' ;;
      crit <- _convergence_criterion ;;
      s <- get ;;
      if Qcltb crit (tol s)
      then ret (Converged, coef_sparse', Some coef_full')
      else for_range n' cho x_transpose_y coef_sparse' (Some coef_full')
  end.

Definition did_not_converge (max_iter : Z) : string :=
  ("SR3._reduce did not converge after "
     ++ NilZero.string_of_int (Z.to_int max_iter) ++ " iterations.")%string.

(** The matrix that [_reduce] factorizes. *)
Definition normal_matrix (x : ndarray) (nu : Qc) : ndarray :=
  np.add (np.dot (np.transpose x) x)
    (np.diag (np.full (snd (np.shape x)) (1 / nu))).

(** [_reduce] returns nothing in Python; here it returns which way the loop
    was left, so that statements can name it.  [1.0 / self.nu] raises on a
    zero [nu]; the name [coef_full] is read after the loop whether or not
    the body has bound it. *)
Definition _reduce {L : Linalg} (x y : ndarray) : M loop_exit :=
  s <- get ;;
  let coef_sparse := coef_ s in
  let '(n_samples, n_features) := np.shape x in
  s <- get ;;
  (if Qc_eq_bool (nu s) 0 then raise ZeroDivisionError else ret tt) ;;;
  cho <- call_cho_factor (normal_matrix x (nu s)) ;;
  let x_transpose_y := np.dot (np.transpose x) y in
  s <- get ;;
  out <- for_range (Z.to_nat (max_iter s)) cho x_transpose_y coef_sparse None ;;
  let '(exit, coef_sparse, coef_full) := out in
  (match exit with
   | Converged => ret tt
   | Exhausted =>
       s <- get ;;
       warnings_warn (did_not_converge (max_iter s)) ConvergenceWarning
   end) ;;;
  s <- get ;;
  put (set_coef_ s coef_sparse) ;;;
  coef_full <- (match coef_full with
                | Some w => ret w
                | None => raise UnboundLocalError
                end) ;;
  s <- get ;;
  put (set_coef_full_ s coef_full) ;;;
  ret exit.

(** ** Vocabulary of the statements *)

(** The hyperparameters, which no method assigns after construction. *)
Definition same_hyperparameters (s s' : SR3) : Prop :=
  threshold s' = threshold s /\ nu s' = nu s /\ tol s' = tol s /\
  prox s' = prox s /\ max_iter s' = max_iter s.

(** The right-hand side of the full-coefficient solve. *)
Definition rhs (s : SR3) (x_transpose_y coef_sparse : ndarray) : ndarray :=
  np.add x_transpose_y (np.true_divide coef_sparse (nu s)).

(** The value [_convergence_criterion] computes, as a function of the
    history alone. *)
Definition criterion (h : list ndarray) : option Qc :=
  match rev h with
  | [] => None
  | this_coef :: older =>
      let last_coef := match older with
                       | last_coef :: _ => last_coef
                       | [] => np.zeros_like this_coef
                       end in
      Some (np.sum (np.square (np.subtract this_coef last_coef)))
  end.

(** What holds when [for_range n] started in [w] with [v] and [ow] leaves
    by [e] with [v'] and [ow'] in [w']: [snaps] are the snapshots it
    appended, [solves] the trace it produced. *)
Record loop_post {L : Linalg} (n : nat) (c : cho_t) (xty v : ndarray)
  (ow : option ndarray) (w : world) (e : loop_exit) (v' : ndarray)
  (ow' : option ndarray) (w' : world) (snaps : list ndarray)
  (solves : list event) : Prop := {
  lp_hyper : same_hyperparameters (self w) (self w');
  lp_coef : coef_ (self w') = coef_ (self w);
  lp_coef_full : coef_full_ (self w') = coef_full_ (self w);
  lp_history : history_ (self w') = history_ (self w) ++ snaps;
  lp_iters : iters (self w') = (iters (self w) + Z.of_nat (length snaps))%Z;
  lp_bound : (length snaps <= n)%nat;
  lp_trace : trace w' = trace w ++ solves;
  lp_solves_length : length solves = length snaps;
  lp_solves : Forall (fun ev => exists b, ev = Solve c b) solves;
  lp_exit :
    match e with
    | Converged =>
        snaps <> [] /\
        exists crit, criterion (history_ (self w')) = Some crit /\
                     crit < tol (self w)
    | Exhausted =>
        length snaps = n /\
        (snaps <> [] ->
         exists crit, criterion (history_ (self w')) = Some crit /\
                      tol (self w) <= crit)
    end;
  lp_none : snaps = [] -> v' = v /\ ow' = ow;
  lp_last :
    snaps <> [] ->
    exists (pre : list ndarray) (v_prev w_full : ndarray),
      v :: snaps = pre ++ [v_prev; v'] /\
      ow' = Some w_full /\
      w_full = cho_solve c (rhs (self w) xty v_prev) /\
      v' = prox (self w) w_full (threshold (self w))
}.

(** What [__init__] has checked of an optimizer it returned. *)
Definition validated (s : SR3) : Prop :=
  0 <= threshold s /\ 0 < nu s /\ 0 < tol s /\ (0 < max_iter s)%Z.

(** The warning of the loop's [else] clause. *)
Definition convergence_warning {L : Linalg} (s : SR3) : event :=
  Warn (did_not_converge (max_iter s)) ConvergenceWarning.

(** The trace once the statement after the loop has run. *)
Definition warned {L : Linalg} (e : loop_exit) (s : SR3) (tr : list event)
  : list event :=
  match e with
  | Converged => tr
  | Exhausted => tr ++ [convergence_warning s]
  end.

(** What a completed [_reduce] leaves behind. *)
Record reduce_post {L : Linalg} (x y : ndarray) (s : SR3) (tr : list event)
  (c : cho_t) (e : loop_exit) (w' : world) (snaps : list ndarray)
  (solves : list event) : Prop := {
  rp_hyper : same_hyperparameters s (self w');
  rp_history : history_ (self w') = history_ s ++ snaps;
  rp_iters : iters (self w') = (iters s + Z.of_nat (length snaps))%Z;
  rp_at_least_one : (1 <= length snaps)%nat;
  rp_bound : (Z.of_nat (length snaps) <= max_iter s)%Z;
  rp_trace :
    trace w' =
      warned e s (tr ++ Factor (normal_matrix x (nu s)) :: solves);
  rp_solves_length : length solves = length snaps;
  rp_solves : Forall (fun ev => exists b, ev = Solve c b) solves;
  rp_exit :
    exists crit, criterion (history_ (self w')) = Some crit /\
      match e with
      | Converged => crit < tol s
      | Exhausted =>
          tol s <= crit /\ Z.of_nat (length snaps) = max_iter s
      end;
  rp_stored :
    exists (pre : list ndarray) (v_prev w_full : ndarray),
      coef_ s :: snaps = pre ++ [v_prev; coef_ (self w')] /\
      coef_full_ (self w') = Some w_full /\
      w_full = cho_solve c (rhs s (np.dot (np.transpose x) y) v_prev) /\
      coef_ (self w') = prox s w_full (threshold s)
}.

(** The world in which the loop of [_reduce] starts. *)
Definition loop_entry {L : Linalg} (x : ndarray) (s : SR3) (tr : list event)
  : world :=
  World s (tr ++ [Factor (normal_matrix x (nu s))]).

(** The last entry of a history, if it has one. *)
Definition last_entry (h : list ndarray) : option ndarray := hd_error (rev h).


(** The sum, over all [r * c] entries, of the squared difference. *)
Definition sum_sq_diff (r c : nat) (a b : ndarray) : Qc :=
  qsum (map (fun i =>
               qsum (map (fun j =>
                           (np.item a i j - np.item b i j) *
                           (np.item a i j - np.item b i j))
                       (seq 0 c)))
          (seq 0 r)).

(** The sum of the squared entries. *)
Definition sum_sq (r c : nat) (a : ndarray) : Qc :=
  qsum (map (fun i =>
               qsum (map (fun j => np.item a i j * np.item a i j) (seq 0 c)))
          (seq 0 r)).

(** The all-zero matrix of a shape. *)
Definition zero_matrix (r c : nat) : ndarray :=
  np.array c (repeat (repeat 0 c) r).

(** Entry [(i, j)] of the transposed [x] times [x]: the inner product of
    columns [i] and [j]. *)
Definition gram (x : ndarray) (i j : nat) : Qc :=
  np.inner (np.column x i) (np.column x j).

(** ** An instance: problems with a single feature

    For one feature the normal matrix is one by one; its factorization is
    kept as the entry itself and a solve divides by it. *)

Definition cho_factor_1 (a : ndarray) : option Qc :=
  match np.ncols a, np.rows a with
  | 1%nat, [[d]] => if Qcltb 0 d then Some d else None
  | _, _ => None
  end.

Definition Linalg_1 : Linalg :=
  {| cho_t := Qc;
     cho_factor := cho_factor_1;
     cho_solve := fun d b => np.true_divide b d |}.

(** The optimizer of the documentation: threshold 0.1, nu 1, tol 1e-5, l0. *)
Definition default_optimizer (max_iter0 : Z) : SR3 :=
  match __init__ (qc 1 10) 1 (qc 1 100000) "l0" max_iter0 with
  | inr s => s
  | inl _ => mkSR3 0 0 0 "" prox_l0 max_iter0 0 [] (np.array 0 []) None
  end.

(** The one-by-one array. *)
Definition scalar (v : Qc) : ndarray := np.array 1 [[v]].

(** The factorization [_reduce] obtains for [x] and [s]. *)
Definition factor_1 (x : ndarray) (s : SR3) : Qc :=
  match cho_factor_1 (normal_matrix x (nu s)) with
  | Some c => c
  | None => 0
  end.

(** The events of a trace without their payload. *)
Inductive kind : Type := Factored | Solved | Warned.

Definition kind_of {L : Linalg} (ev : event) : kind :=
  match ev with
  | Factor _ => Factored
  | Solve _ _ => Solved
  | Warn _ _ => Warned
  end.

(** The optimizer of the documentation with [guess] as its sparse
    coefficient, as it is before a fit iterates. *)
Definition guessing (max_iter0 : Z) (guess : ndarray) : SR3 :=
  set_coef_ (default_optimizer max_iter0) guess.

(** The outcome of the two-iteration loop on [x = 1], [y = 2], guess 1. *)
Definition loop_of_two :
  (exn + loop_exit * ndarray * option ndarray) * @world Linalg_1 :=
  for_range (L := Linalg_1) 2 (factor_1 (scalar 1) (guessing 2 (scalar 1)))
    (np.dot (np.transpose (scalar 1)) (scalar (qc 2 1))) (scalar 1) None
    (loop_entry (scalar 1) (guessing 2 (scalar 1)) []).

Definition loop_of_two_v : ndarray :=
  match fst loop_of_two with
  | inr (_, v, _) => v
  | inl _ => scalar 0
  end.

Definition loop_of_two_ow : option ndarray :=
  match fst loop_of_two with
  | inr (_, _, ow) => ow
  | inl _ => None
  end.

(** ** Vocabulary of the further statements *)

(** One turn of the alternation from the sparse coefficient [v]: a full
    update with the factorization [c], then a sparse update. *)
Definition sr3_step {L : Linalg} (s : SR3) (c : cho_t) (xty v : ndarray)
  : ndarray :=
  prox s (cho_solve c (rhs s xty v)) (threshold s).

(** The first [k] sparse coefficients of the alternation started at [v]. *)
Fixpoint orbit {L : Linalg} (k : nat) (s : SR3) (c : cho_t)
  (xty v : ndarray) : list ndarray :=
  match k with
  | O => []
  | S k' =>
      let v1 := sr3_step s c xty v in
      v1 :: orbit k' s c xty v1
  end.

(** The kinds of the events that a run of [_reduce] with outcome [r] and
    [k] iterations emits, in their order. *)
Definition emitted_kinds (r : exn + loop_exit) (k : nat) : list kind :=
  match r with
  | inl ZeroDivisionError => []
  | inl LinAlgError => [Factored]
  | inr Converged => Factored :: repeat Solved k
  | _ => Factored :: repeat Solved k ++ [Warned]
  end.

(** What [for_range n] does, in terms of the orbit of [v]: [k] turns, each
    before the last with a criterion that is not below [tol]. *)
Record orbit_post {L : Linalg} (n : nat) (c : cho_t) (xty v : ndarray)
  (ow : option ndarray) (s : SR3) (tr : list event) (e : loop_exit)
  (v' : ndarray) (ow' : option ndarray) (w' : world) (k : nat) : Prop := {
  op_history : history_ (self w') = history_ s ++ orbit k s c xty v;
  op_iters : iters (self w') = (iters s + Z.of_nat k)%Z;
  op_bound : (k <= n)%nat;
  op_thresholder : thresholder (self w') = thresholder s;
  op_kinds : map kind_of (trace w') = map kind_of tr ++ repeat Solved k;
  op_last : v' = last (orbit k s c xty v) v;
  op_none : k = 0%nat -> w' = World s tr /\ ow' = ow;
  op_some : (0 < k)%nat -> exists w_full, ow' = Some w_full;
  op_exhausted : e = Exhausted -> k = n;
  op_converged : e = Converged -> (0 < k)%nat;
  op_earlier :
    forall j, (0 < j < k)%nat ->
      exists crit, criterion (history_ s ++ orbit j s c xty v) = Some crit /\
                   tol s <= crit
}.

(** * Properties *)

(** ** Comparisons *)

Lemma Qcltb_lt (x y : Qc) : Qcltb x y = true <-> x < y.
Proof.
  unfold Qcltb. rewrite Qclt_alt.
  destruct (x ?= y); split; intro H; congruence.
Qed.

Lemma Qcltb_ge (x y : Qc) : Qcltb x y = false <-> y <= x.
Proof.
  split; intro H.
  - apply Qcnot_lt_le. intro Hlt. apply Qcltb_lt in Hlt. congruence.
  - destruct (Qcltb x y) eqn:E; [ | reflexivity ].
    apply Qcltb_lt in E. exfalso. exact (Qcle_not_lt _ _ H E).
Qed.

Lemma Qcleb_le (x y : Qc) : Qcleb x y = true <-> x <= y.
Proof.
  unfold Qcleb. rewrite Qcle_alt.
  destruct (x ?= y); split; intro H; congruence.
Qed.

Lemma Qcleb_gt (x y : Qc) : Qcleb x y = false <-> y < x.
Proof.
  split; intro H.
  - apply Qcnot_le_lt. intro Hle. apply Qcleb_le in Hle. congruence.
  - destruct (Qcleb x y) eqn:E; [ | reflexivity ].
    apply Qcleb_le in E. exfalso. exact (Qclt_not_le _ _ H E).
Qed.

Lemma Qc_eq_bool_false (x y : Qc) : x <> y -> Qc_eq_bool x y = false.
Proof.
  intro H. unfold Qc_eq_bool. destruct (Qc_eq_dec x y); congruence.
Qed.

Lemma Qclt_neq_0 (x : Qc) : 0 < x -> x <> 0.
Proof. intros H E. subst x. exact (Qclt_not_eq _ _ H eq_refl). Qed.

(** ** What one call of each method does *)

Section Methods.

Context {L : Linalg}.

Lemma update_full_coef_run (c : cho_t) (xty v : ndarray) (s : SR3)
  (tr : list event) :
  _update_full_coef c xty v (World s tr) =
    (inr (cho_solve c (rhs s xty v)),
     World (set_iters s (iters s + 1)) (tr ++ [Solve c (rhs s xty v)])).
Proof. reflexivity. Qed.

Lemma update_sparse_coef_run (w_full : ndarray) (s : SR3) (tr : list event) :
  _update_sparse_coef w_full (World s tr) =
    (inr (prox s w_full (threshold s)),
     World (set_history_ s (history_ s ++ [prox s w_full (threshold s)])) tr).
Proof. reflexivity. Qed.

Lemma convergence_criterion_run (s : SR3) (tr : list event) :
  _convergence_criterion (World s tr) =
    (match criterion (history_ s) with
     | Some crit => inr crit
     | None => inl IndexError
     end, World s tr).
Proof.
  unfold _convergence_criterion, criterion, bind, get, getitem_neg. simpl.
  rewrite <- (length_rev (history_ s)).
  destruct (rev (history_ s)) as [ | this_coef [ | last_coef older ] ];
    reflexivity.
Qed.

Lemma criterion_snoc (h : list ndarray) (v : ndarray) :
  exists crit, criterion (h ++ [v]) = Some crit.
Proof.
  unfold criterion. rewrite rev_app_distr. simpl. eexists. reflexivity.
Qed.

Lemma criterion_one (v : ndarray) :
  criterion [v] =
    Some (np.sum (np.square (np.subtract v (np.zeros_like v)))).
Proof. reflexivity. Qed.

Lemma criterion_two (h : list ndarray) (u v : ndarray) :
  criterion (h ++ [u; v]) = Some (np.sum (np.square (np.subtract v u))).
Proof.
  unfold criterion. rewrite rev_app_distr. reflexivity.
Qed.

End Methods.

(** ** The loop *)

Section Loop.

Context {L : Linalg}.

Lemma same_hyperparameters_refl (s : SR3) : same_hyperparameters s s.
Proof. repeat split. Qed.

(** One turn of the loop. *)
Lemma for_range_step (n : nat) (c : cho_t) (xty v : ndarray)
  (ow : option ndarray) (s : SR3) (tr : list event) :
  for_range (S n) c xty v ow (World s tr) =
    let b := rhs s xty v in
    let w_full := cho_solve c b in
    let v1 := prox s w_full (threshold s) in
    let w1 :=
      World (set_history_ (set_iters s (iters s + 1)) (history_ s ++ [v1]))
        (tr ++ [Solve c b]) in
    match criterion (history_ s ++ [v1]) with
    | Some crit =>
        if Qcltb crit (tol s)
        then (inr (Converged, v1, Some w_full), w1)
        else for_range n c xty v1 (Some w_full) w1
    | None => (inl IndexError, w1)
    end.
Proof.
  cbn [for_range]. unfold bind at 1.
  rewrite update_full_coef_run. unfold bind at 1.
  rewrite update_sparse_coef_run. unfold bind at 1.
  rewrite convergence_criterion_run.
  cbn [history_ set_history_ set_iters prox threshold].
  cbv zeta.
  destruct (criterion _) as [ crit | ]; [ | reflexivity ].
  unfold bind, get, ret. cbn [self tol set_history_ set_iters].
  destruct (Qcltb crit (tol s)); reflexivity.
Qed.

Lemma for_range_spec (n : nat) (c : cho_t) (xty : ndarray) :
  forall (v : ndarray) (ow : option ndarray) (w : world),
  exists e v' ow' w' snaps solves,
    for_range n c xty v ow w = (inr (e, v', ow'), w') /\
    loop_post n c xty v ow w e v' ow' w' snaps solves.
Proof.
  induction n as [ | n IH ]; intros v ow [s tr].
  - exists Exhausted, v, ow, (World s tr), [], [].
    split; [ reflexivity | ].
    constructor; simpl; try reflexivity; try (now rewrite ?app_nil_r);
      try (apply same_hyperparameters_refl); auto.
    rewrite Z.add_0_r. reflexivity.
  - set (b := rhs s xty v).
    set (w_full := cho_solve c b).
    set (v1 := prox s w_full (threshold s)).
    set (s1 := set_history_ (set_iters s (iters s + 1)) (history_ s ++ [v1])).
    set (w1 := World s1 (tr ++ [Solve c b])).
    destruct (criterion_snoc (history_ s) v1) as [crit Hcrit].
    assert (Hbody :
      for_range (S n) c xty v ow (World s tr) =
        if Qcltb crit (tol s)
        then (inr (Converged, v1, Some w_full), w1)
        else for_range n c xty v1 (Some w_full) w1).
    { rewrite for_range_step. cbv zeta. fold b w_full v1.
      rewrite Hcrit. reflexivity. }
    rewrite Hbody. clear Hbody.
    destruct (Qcltb crit (tol s)) eqn:Htest.
    + exists Converged, v1, (Some w_full), w1, [v1], [Solve c b].
      split; [ reflexivity | ].
      constructor; simpl.
      * repeat split.
      * reflexivity.
      * reflexivity.
      * reflexivity.
      * reflexivity.
      * lia.
      * reflexivity.
      * reflexivity.
      * constructor; [ now exists b | constructor ].
      * split; [ discriminate | ].
        exists crit. split; [ exact Hcrit | ]. now apply Qcltb_lt.
      * discriminate.
      * intros _. exists [], v, w_full. repeat split.
    + destruct (IH v1 (Some w_full) w1)
        as (e & v' & ow' & w' & snaps & solves & Hrun & Hpost).
      exists e, v', ow', w', (v1 :: snaps), (Solve c b :: solves).
      split; [ exact Hrun | ].
      destruct Hpost as [Hh Hc Hcf Hhist Hit Hb Htr Hsl Hs He Hn Hl].
      simpl in Hh, Hc, Hcf, Hhist, Hit, Htr, He, Hl.
      constructor; simpl.
      * exact Hh.
      * exact Hc.
      * exact Hcf.
      * rewrite Hhist, <- app_assoc. reflexivity.
      * rewrite Hit. lia.
      * lia.
      * rewrite Htr, <- app_assoc. reflexivity.
      * now rewrite Hsl.
      * constructor; [ now exists b | exact Hs ].
      * destruct e.
        -- split; [ discriminate | ]. exact (proj2 He).
        -- destruct He as [Hlen Hge]. split; [ now rewrite Hlen | ].
           intros _. destruct snaps as [ | v2 snaps ].
           ++ exists crit. rewrite Hhist, app_nil_r.
              split; [ exact Hcrit | ]. now apply Qcltb_ge.
           ++ apply Hge. discriminate.
      * discriminate.
      * intros _. destruct snaps as [ | v2 snaps ].
        -- destruct (Hn eq_refl) as [-> ->].
           exists [], v, w_full. repeat split.
        -- destruct Hl as (pre & v_prev & w_last & Hsplit & Hout & Hw & Hv);
             [ discriminate | ].
           exists (v :: pre), v_prev, w_last. repeat split; auto.
           simpl. rewrite <- Hsplit. reflexivity.
Qed.

End Loop.

(** ** [_reduce] as a whole *)

Section Reduce.

Context {L : Linalg}.

Lemma reduce_zero_nu (x y : ndarray) (s : SR3) (tr : list event) :
  nu s = 0 ->
  _reduce x y (World s tr) = (inl ZeroDivisionError, World s tr).
Proof.
  intro H. unfold _reduce, bind, get, raise. simpl. rewrite H. reflexivity.
Qed.

Lemma reduce_not_factorized (x y : ndarray) (s : SR3) (tr : list event) :
  nu s <> 0 ->
  cho_factor (normal_matrix x (nu s)) = None ->
  _reduce x y (World s tr) =
    (inl LinAlgError, World s (tr ++ [Factor (normal_matrix x (nu s))])).
Proof.
  intros Hnu H.
  unfold _reduce, call_cho_factor, bind, get, raise, emit. simpl.
  rewrite (Qc_eq_bool_false Hnu). simpl. rewrite H. reflexivity.
Qed.

Lemma reduce_run (x y : ndarray) (s : SR3) (tr : list event) (c : cho_t)
  (e : loop_exit) (v' : ndarray) (ow' : option ndarray) (w1 : world) :
  nu s <> 0 ->
  cho_factor (normal_matrix x (nu s)) = Some c ->
  for_range (Z.to_nat (max_iter s)) c (np.dot (np.transpose x) y)
    (coef_ s) None (World s (tr ++ [Factor (normal_matrix x (nu s))]))
    = (inr (e, v', ow'), w1) ->
  _reduce x y (World s tr) =
    match ow' with
    | Some w_full =>
        (inr e,
         World (set_coef_full_ (set_coef_ (self w1) v') w_full)
           (warned e (self w1) (trace w1)))
    | None =>
        (inl UnboundLocalError,
         World (set_coef_ (self w1) v') (warned e (self w1) (trace w1)))
    end.
Proof.
  intros Hnu Hc Hloop.
  unfold _reduce, call_cho_factor, bind at 1 2 3 4 5 6, get, emit. simpl.
  rewrite (Qc_eq_bool_false Hnu). simpl. rewrite Hc. simpl.
  unfold bind at 1. rewrite Hloop.
  destruct w1 as [s1 tr1].
  destruct e, ow'; reflexivity.
Qed.

Lemma reduce_spec (x y : ndarray) (s : SR3) (tr : list event) (c : cho_t) :
  nu s <> 0 -> (0 < max_iter s)%Z ->
  cho_factor (normal_matrix x (nu s)) = Some c ->
  exists e w' snaps solves,
    _reduce x y (World s tr) = (inr e, w') /\
    reduce_post x y s tr c e w' snaps solves.
Proof.
  intros Hnu Hmax Hc.
  destruct (for_range_spec (Z.to_nat (max_iter s)) c
              (np.dot (np.transpose x) y) (coef_ s) None
              (World s (tr ++ [Factor (normal_matrix x (nu s))])))
    as (e & v' & ow' & [s1 tr1] & snaps & solves & Hrun & Hpost).
  destruct Hpost as [Hh Hco Hcf Hhist Hit Hb Htr Hsl Hs He Hn Hl].
  simpl in Hh, Hco, Hcf, Hhist, Hit, Htr, He, Hl.
  assert (Hne : snaps <> []).
  { destruct e.
    - exact (proj1 He).
    - destruct He as [Hlen _]. intro E. subst snaps. simpl in Hlen. lia. }
  destruct (Hl Hne) as (pre & v_prev & w_full & Hsplit & Hout & Hw & Hv).
  rewrite reduce_run with (1 := Hnu) (2 := Hc) (3 := Hrun). subst ow'.
  exists e. eexists. exists snaps, solves.
  split; [ reflexivity | ].
  destruct Hh as (Hh1 & Hh2 & Hh3 & Hh4 & Hh5).
  constructor; simpl.
  - repeat split; assumption.
  - exact Hhist.
  - exact Hit.
  - destruct snaps; [ congruence | simpl; lia ].
  - lia.
  - rewrite Htr, <- app_assoc. simpl.
    destruct e; simpl; [ reflexivity | ].
    unfold convergence_warning. rewrite Hh5. reflexivity.
  - exact Hsl.
  - exact Hs.
  - destruct e.
    + destruct He as (_ & crit & Hcrit & Hlt). now exists crit.
    + destruct He as (Hlen & Hge).
      destruct (Hge Hne) as (crit & Hcrit & Hle).
      exists crit. repeat split; auto. lia.
  - exists pre, v_prev, w_full. repeat split; auto.
Qed.

End Reduce.

(** ** Construction *)

Lemma init_stores (threshold0 nu0 tol0 : Qc) (name : string) (max_iter0 : Z)
  (s : SR3) :
  __init__ threshold0 nu0 tol0 name max_iter0 = inr s ->
  threshold s = threshold0 /\ nu s = nu0 /\ tol s = tol0 /\
  thresholder s = name /\ max_iter s = max_iter0 /\
  get_prox name = inr (prox s) /\
  0 <= threshold0 /\ 0 < nu0 /\ 0 < tol0 /\ (0 < max_iter0)%Z.
Proof.
  unfold __init__. simpl.
  destruct (Qcltb threshold0 0) eqn:H1; [ discriminate | ].
  destruct (Qcleb nu0 0) eqn:H2; [ discriminate | ].
  destruct (Qcleb tol0 0) eqn:H3; [ discriminate | ].
  destruct (max_iter0 <=? 0)%Z eqn:H4; [ discriminate | ].
  destruct (get_prox name) as [ e | p ]; [ discriminate | ].
  intro H. injection H as <-. simpl.
  apply Qcltb_ge in H1. apply Qcleb_gt in H2. apply Qcleb_gt in H3.
  apply Z.leb_gt in H4. repeat split; assumption.
Qed.

Lemma init_validated (threshold0 nu0 tol0 : Qc) (name : string)
  (max_iter0 : Z) (s : SR3) :
  __init__ threshold0 nu0 tol0 name max_iter0 = inr s ->
  0 <= threshold s /\ 0 < nu s /\ 0 < tol s /\ (0 < max_iter s)%Z.
Proof.
  intro H. apply init_stores in H.
  destruct H as (-> & -> & -> & _ & -> & _ & H). exact H.
Qed.

Section Run.

Context {L : Linalg}.

(** Whatever way [_reduce] ends, it has only appended to the history, one
    snapshot for each iteration it counted. *)
Lemma reduce_appends (x y : ndarray) (s : SR3) (tr : list event)
  (r : exn + loop_exit) (w' : world) :
  _reduce x y (World s tr) = (r, w') ->
  exists snaps,
    history_ (self w') = history_ s ++ snaps /\
    iters (self w') = (iters s + Z.of_nat (length snaps))%Z /\
    (length snaps <= Z.to_nat (max_iter s))%nat.
Proof.
  intro Hrun.
  destruct (Qc_eq_dec (nu s) 0) as [Hnu | Hnu].
  { rewrite (reduce_zero_nu x y s tr Hnu) in Hrun.
    injection Hrun as _ <-. exists []. simpl.
    rewrite app_nil_r, Z.add_0_r. repeat split. lia. }
  destruct (cho_factor (normal_matrix x (nu s))) as [c | ] eqn:Hc.
  2:{ rewrite (reduce_not_factorized x y s tr Hnu Hc) in Hrun.
      injection Hrun as _ <-. exists []. simpl.
      rewrite app_nil_r, Z.add_0_r. repeat split. lia. }
  destruct (for_range_spec (Z.to_nat (max_iter s)) c
              (np.dot (np.transpose x) y) (coef_ s) None
              (World s (tr ++ [Factor (normal_matrix x (nu s))])))
    as (e & v' & ow' & w1 & snaps & solves & Hloop & Hpost).
  rewrite reduce_run with (1 := Hnu) (2 := Hc) (3 := Hloop) in Hrun.
  exists snaps.
  destruct Hpost as [_ _ _ Hhist Hit Hb _ _ _ _ _ _]. simpl in Hhist, Hit.
  destruct ow'; injection Hrun as _ <-; simpl; auto.
Qed.

(** C3: a fit, whose iterations are the run of [_reduce], that reaches its
    loop leaves it in exactly one of two ways.  By Converged, and then the
    convergence criterion of the final history is below [tol]; or by
    Exhausted, after exactly [max_iter] iterations, and then that criterion
    is at least [tol]. *)
Theorem reduce_exit_matches_criterion (x y : ndarray) (s : SR3)
  (tr : list event) (c : cho_t) :
  validated s ->
  cho_factor (normal_matrix x (nu s)) = Some c ->
  exists e w' crit,
    _reduce x y (World s tr) = (inr e, w') /\
    _convergence_criterion w' = (inr crit, w') /\
    ((e = Converged /\ crit < tol s) \/
     (e = Exhausted /\ iters (self w') = (iters s + max_iter s)%Z /\
      tol s <= crit)) /\
    ~ (crit < tol s /\ tol s <= crit).
Proof.
  intros (_ & Hnu & _ & Hmax) Hc.
  destruct (reduce_spec x y s tr (Qclt_neq_0 Hnu) Hmax Hc)
    as (e & [s' tr'] & snaps & solves & Hrun & Hpost).
  destruct Hpost as [_ _ Hit _ _ _ _ _ (crit & Hcrit & He) _].
  simpl in Hit, Hcrit, He.
  exists e, (World s' tr'), crit.
  split; [ exact Hrun | ].
  split; [ rewrite convergence_criterion_run, Hcrit; reflexivity | ].
  split.
  - destruct e; [ left | right ].
    + split; [ reflexivity | exact He ].
    + destruct He as [Hle Hlen].
      repeat split; [ simpl; lia | exact Hle ].
  - intros [Hlt Hle]. exact (Qcle_not_lt _ _ Hle Hlt).
Qed.

(** C5: when the loop of [_reduce] is left by [e] with the pair [v], [ow],
    the call completes normally and stores that pair, whichever exit it
    was; when the exit is Exhausted the ConvergenceWarning is the last
    thing the call emits, all [max_iter] iterations have run and the
    criterion is not below [tol]; on Converged nothing is emitted. *)
Theorem exhausted_reduce_warns_and_stores (x y : ndarray) (s : SR3)
  (tr : list event) (c : cho_t) (e : loop_exit) (v : ndarray)
  (ow : option ndarray) (w1 : world) :
  validated s ->
  cho_factor (normal_matrix x (nu s)) = Some c ->
  for_range (Z.to_nat (max_iter s)) c (np.dot (np.transpose x) y)
    (coef_ s) None (loop_entry x s tr) = (inr (e, v, ow), w1) ->
  exists w_full w',
    ow = Some w_full /\
    _reduce x y (World s tr) = (inr e, w') /\
    coef_ (self w') = v /\
    coef_full_ (self w') = Some w_full /\
    v = prox s w_full (threshold s) /\
    (exists older, history_ (self w') = older ++ [v]) /\
    trace w' = match e with
               | Exhausted => trace w1 ++ [convergence_warning s]
               | Converged => trace w1
               end /\
    (e = Exhausted ->
     iters (self w') = (iters s + max_iter s)%Z /\
     exists crit, criterion (history_ (self w')) = Some crit /\
                  tol s <= crit).
Proof.
  intros Hv Hc Hloop.
  destruct Hv as (_ & Hnu & _ & Hmax).
  destruct (for_range_spec (Z.to_nat (max_iter s)) c
              (np.dot (np.transpose x) y) (coef_ s) None
              (loop_entry x s tr))
    as (e0 & v0 & ow0 & w0 & snaps & solves & Hrun & Hpost).
  rewrite Hloop in Hrun. injection Hrun as <- <- <- <-.
  destruct Hpost as [Hh _ _ Hhist Hit _ _ _ _ He _ Hl].
  simpl in Hh, Hhist, Hit, He, Hl.
  assert (Hne : snaps <> []).
  { destruct e.
    - exact (proj1 He).
    - destruct He as [Hlen _]. intro E. rewrite E in Hlen.
      simpl in Hlen. lia. }
  destruct (Hl Hne) as (pre & v_prev & w_full & Hsplit & Hout & _ & Hval).
  destruct Hh as (_ & _ & _ & _ & Hh5).
  rewrite reduce_run with (c := c) (e := e) (v' := v) (ow' := ow)
    (w1 := w1); auto using Qclt_neq_0.
  subst ow. exists w_full. eexists.
  split; [ reflexivity | ]. split; [ reflexivity | ]. simpl.
  split; [ reflexivity | ]. split; [ reflexivity | ].
  split; [ exact Hval | ].
  split.
  { rewrite Hhist.
    destruct (exists_last Hne) as (older & v_last & Hs).
    exists (history_ s ++ older). rewrite Hs in Hsplit |- *.
    change (coef_ s :: older ++ [v_last])
      with ((coef_ s :: older) ++ [v_last]) in Hsplit.
    change (pre ++ [v_prev; v]) with (pre ++ [v_prev] ++ [v]) in Hsplit.
    rewrite app_assoc in Hsplit.
    apply app_inj_tail in Hsplit. destruct Hsplit as [_ ->].
    now rewrite app_assoc. }
  split.
  { destruct e; simpl; [ reflexivity | ].
    unfold convergence_warning. rewrite Hh5. reflexivity. }
  intros ->. destruct He as [Hlen Hge].
  split; [ rewrite Hit, Hlen; lia | ].
  exact (Hge Hne).
Qed.

(** C6: every sparse-coefficient update appends exactly one snapshot and
    keeps what the history held; so, however [_reduce] ends, the history has
    grown by one entry for each iteration it counted, at most [max_iter] of
    them, and nothing was removed.  When the fit starts its iterations with
    an empty history and a zero count, the length of the history is the
    number of iterations performed. *)
Theorem history_length_counts_iterations (x y : ndarray) (s : SR3)
  (tr : list event) (r : exn + loop_exit) (w' : world) :
  _reduce x y (World s tr) = (r, w') ->
  (forall (w_full : ndarray) (s0 : SR3) (tr0 : list event),
      exists v,
        _update_sparse_coef w_full (World s0 tr0) =
          (inr v, World (set_history_ s0 (history_ s0 ++ [v])) tr0)) /\
  (exists snaps,
      history_ (self w') = history_ s ++ snaps /\
      Z.of_nat (length snaps) = (iters (self w') - iters s)%Z /\
      (Z.of_nat (length snaps) <= Z.max 0 (max_iter s))%Z) /\
  (history_ s = [] -> iters s = 0%Z ->
   Z.of_nat (length (history_ (self w'))) = iters (self w') /\
   (iters (self w') <= Z.max 0 (max_iter s))%Z).
Proof.
  intros Hrun.
  split.
  { intros w_full s0 tr0. eexists. apply update_sparse_coef_run. }
  destruct (reduce_appends _ _ _ _ Hrun) as (snaps & Hhist & Hit & Hb).
  split.
  - exists snaps. repeat split; [ exact Hhist | lia | lia ].
  - intros Hempty Hzero. rewrite Hhist, Hit, Hempty, Hzero. simpl.
    split; lia.
Qed.

(** C8, as the code has it: with [max_iter = 1] a run of [_reduce] that
    reaches its loop performs one iteration, appends exactly one history
    entry and stores the pair of that iteration.  It is Exhausted, with the
    convergence warning, when the criterion after that iteration is at
    least [tol]; otherwise it is Converged and nothing is emitted.  On a
    history that was empty the criterion is the sum of the squared entries
    of the one snapshot. *)
Theorem reduce_with_one_iteration (x y : ndarray) (s : SR3)
  (tr : list event) (c : cho_t) :
  validated s ->
  max_iter s = 1%Z ->
  cho_factor (normal_matrix x (nu s)) = Some c ->
  let b := rhs s (np.dot (np.transpose x) y) (coef_ s) in
  let w_full := cho_solve c b in
  let v := prox s w_full (threshold s) in
  let called := tr ++ [Factor (normal_matrix x (nu s)); Solve c b] in
  exists e w' crit,
    _reduce x y (World s tr) = (inr e, w') /\
    history_ (self w') = history_ s ++ [v] /\
    iters (self w') = (iters s + 1)%Z /\
    coef_ (self w') = v /\
    coef_full_ (self w') = Some w_full /\
    criterion (history_ s ++ [v]) = Some crit /\
    ((e = Exhausted /\ tol s <= crit /\
      trace w' = called ++ [convergence_warning s]) \/
     (e = Converged /\ crit < tol s /\ trace w' = called)) /\
    (history_ s = [] ->
     crit = np.sum (np.square (np.subtract v (np.zeros_like v)))).
Proof.
  intros (_ & Hnu & _ & _) Hmax Hc b w_full v called.
  destruct (criterion_snoc (history_ s) v) as [crit Hcrit].
  assert (Hloop :
    for_range (Z.to_nat (max_iter s)) c (np.dot (np.transpose x) y)
      (coef_ s) None (loop_entry x s tr) =
      (inr (if Qcltb crit (tol s) then Converged else Exhausted,
            v, Some w_full),
       World (set_history_ (set_iters s (iters s + 1)) (history_ s ++ [v]))
         called)).
  { rewrite Hmax. change (Z.to_nat 1) with 1%nat.
    unfold loop_entry. rewrite for_range_step. cbv zeta.
    fold b. fold w_full. fold v. rewrite Hcrit.
    unfold called. rewrite <- app_assoc.
    destruct (Qcltb crit (tol s)); reflexivity. }
  rewrite reduce_run with (c := c) (3 := Hloop);
    [ | exact (Qclt_neq_0 Hnu) | exact Hc ].
  assert (Hone : history_ s = [] ->
                 crit = np.sum (np.square (np.subtract v (np.zeros_like v)))).
  { intro Hempty. rewrite Hempty in Hcrit. simpl in Hcrit.
    rewrite criterion_one in Hcrit. congruence. }
  destruct (Qcltb crit (tol s)) eqn:Htest.
  - exists Converged. eexists. exists crit.
    split; [ reflexivity | ]. simpl.
    repeat split; auto. right. repeat split. now apply Qcltb_lt.
  - exists Exhausted. eexists. exists crit.
    split; [ reflexivity | ]. simpl.
    repeat split; auto. left. repeat split. now apply Qcltb_ge.
Qed.

(** C10: for every optimizer that construction accepted, whatever has
    happened to its state since, [_reduce] never ends with the full
    coefficient unbound; unless the factorization fails, the loop body has
    run at least once and the full coefficient is stored. *)
Theorem reduce_binds_full_coefficient (threshold0 nu0 tol0 : Qc)
  (name : string) (max_iter0 : Z) (s0 s : SR3) (x y : ndarray)
  (tr : list event) (r : exn + loop_exit) (w' : world) :
  __init__ threshold0 nu0 tol0 name max_iter0 = inr s0 ->
  same_hyperparameters s0 s ->
  _reduce x y (World s tr) = (r, w') ->
  (1 <= max_iter s)%Z /\
  r <> inl UnboundLocalError /\
  (r <> inl LinAlgError ->
   exists e w_full,
     r = inr e /\ coef_full_ (self w') = Some w_full /\
     (iters s + 1 <= iters (self w'))%Z).
Proof.
  intros Hinit Hsame Hrun.
  assert (Hv : validated s).
  { destruct Hsame as (H1 & H2 & H3 & _ & H5).
    unfold validated. rewrite H1, H2, H3, H5.
    exact (init_validated _ _ _ _ _ Hinit). }
  destruct Hv as (_ & Hnu & _ & Hmax).
  split; [ lia | ].
  destruct (cho_factor (normal_matrix x (nu s))) as [c | ] eqn:Hc.
  - destruct (reduce_spec x y s tr (Qclt_neq_0 Hnu) Hmax Hc)
      as (e & w1 & snaps & solves & Hred & Hpost).
    rewrite Hred in Hrun. injection Hrun as <- <-.
    split; [ discriminate | ]. intros _.
    destruct Hpost as [_ _ Hit Hone _ _ _ _ _ (_ & _ & w_full & _ & Hcf & _)].
    exists e, w_full. repeat split; auto.
    rewrite Hit. lia.
  - rewrite (reduce_not_factorized x y s tr (Qclt_neq_0 Hnu) Hc) in Hrun.
    injection Hrun as <- _.
    split; [ discriminate | ]. intro H. now contradiction H.
Qed.

End Run.

(** ** Determinism *)

Section Determinism.

Context {L : Linalg}.

Lemma criterion_snoc_last (h : list ndarray) (v : ndarray) :
  criterion (h ++ [v]) =
    Some (np.sum (np.square
                    (np.subtract v
                       (match last_entry h with
                        | Some u => u
                        | None => np.zeros_like v
                        end)))).
Proof.
  unfold criterion, last_entry. rewrite rev_app_distr. simpl.
  destruct (rev h); reflexivity.
Qed.

Lemma last_entry_snoc (h : list ndarray) (v : ndarray) :
  last_entry (h ++ [v]) = Some v.
Proof. unfold last_entry. now rewrite rev_app_distr. Qed.

Lemma last_entry_app (h snaps : list ndarray) :
  snaps <> [] -> last_entry (h ++ snaps) = last_entry snaps.
Proof.
  intro Hne. destruct (exists_last Hne) as (pre & v & ->).
  now rewrite app_assoc, !last_entry_snoc.
Qed.



End Determinism.

(** ** Construction and the registry *)

Lemma get_prox_registered (name : string) :
  (exists p, get_prox name = inr p) <-> In name registered.
Proof.
  unfold get_prox, registered. simpl.
  destruct (String.eqb_spec name "l0") as [ -> | H0 ].
  { split; [ auto | intros _; eexists; reflexivity ]. }
  destruct (String.eqb_spec name "l1") as [ -> | H1 ].
  { split; [ auto | intros _; eexists; reflexivity ]. }
  destruct (String.eqb_spec name "cad") as [ -> | H2 ].
  { split; [ auto | intros _; eexists; reflexivity ]. }
  split.
  - intros [p Hp]. discriminate.
  - intros [E | [E | [E | []]]]; congruence.
Qed.

Lemma get_prox_error (name : string) (e : exn) :
  get_prox name = inl e -> e = UnknownOperator name.
Proof.
  unfold get_prox.
  destruct (String.eqb name "l0"); [ discriminate | ].
  destruct (String.eqb name "l1"); [ discriminate | ].
  destruct (String.eqb name "cad"); [ discriminate | ].
  congruence.
Qed.

(** C4: construction fails exactly when the threshold is negative, or [nu],
    [tol] or [max_iter] is not positive, or the thresholder names no
    registered operator; every failure is a ConfigurationError and yields no
    instance; an instance that is returned stores the five hyperparameters
    as given, with the operator the registry holds under that name. *)
Theorem init_fails_iff_invalid (threshold0 nu0 tol0 : Qc) (name : string)
  (max_iter0 : Z) :
  ((exists e, __init__ threshold0 nu0 tol0 name max_iter0 = inl e) <->
   (threshold0 < 0 \/ nu0 <= 0 \/ tol0 <= 0 \/ (max_iter0 <= 0)%Z \/
    ~ In name registered)) /\
  (forall e,
      __init__ threshold0 nu0 tol0 name max_iter0 = inl e ->
      ConfigurationError e /\
      forall s, __init__ threshold0 nu0 tol0 name max_iter0 <> inr s) /\
  (forall s,
      __init__ threshold0 nu0 tol0 name max_iter0 = inr s ->
      threshold s = threshold0 /\ nu s = nu0 /\ tol s = tol0 /\
      thresholder s = name /\ max_iter s = max_iter0 /\
      In name registered /\ get_prox name = inr (prox s)).
Proof.
  split; [ | split ].
  - unfold __init__. simpl.
    destruct (Qcltb threshold0 0) eqn:H1.
    { apply Qcltb_lt in H1. split; [ auto | eexists; reflexivity ]. }
    destruct (Qcleb nu0 0) eqn:H2.
    { apply Qcleb_le in H2. split; [ auto | eexists; reflexivity ]. }
    destruct (Qcleb tol0 0) eqn:H3.
    { apply Qcleb_le in H3. split; [ auto | eexists; reflexivity ]. }
    destruct (max_iter0 <=? 0)%Z eqn:H4.
    { apply Z.leb_le in H4. split; [ auto 6 | eexists; reflexivity ]. }
    apply Qcltb_ge in H1. apply Qcleb_gt in H2. apply Qcleb_gt in H3.
    apply Z.leb_gt in H4.
    destruct (get_prox name) as [ e | p ] eqn:Hp.
    + split; [ | eexists; reflexivity ].
      intros _. do 4 right. intro Hin.
      apply get_prox_registered in Hin. destruct Hin as [p Hp']. congruence.
    + split.
      * intros [e He]. discriminate.
      * intros [H | [H | [H | [H | H]]]].
        -- exfalso. exact (Qcle_not_lt _ _ H1 H).
        -- exfalso. exact (Qclt_not_le _ _ H2 H).
        -- exfalso. exact (Qclt_not_le _ _ H3 H).
        -- lia.
        -- exfalso. apply H. apply get_prox_registered. now exists p.
  - intros e He. split; [ | intros s Hs; congruence ].
    unfold __init__ in He. simpl in He.
    destruct (Qcltb threshold0 0); [ injection He as <-; exact I | ].
    destruct (Qcleb nu0 0); [ injection He as <-; exact I | ].
    destruct (Qcleb tol0 0); [ injection He as <-; exact I | ].
    destruct (max_iter0 <=? 0)%Z; [ injection He as <-; exact I | ].
    destruct (get_prox name) as [ e' | p ] eqn:Hp; [ | discriminate ].
    injection He as <-. rewrite (get_prox_error _ Hp). exact I.
  - intros s Hs. apply init_stores in Hs.
    destruct Hs as (H1 & H2 & H3 & H4 & H5 & H6 & _).
    repeat split; auto.
    apply get_prox_registered. now exists (prox s).
Qed.

(** C7: the l0 operator returns the value where its magnitude is at least
    the threshold, the tie included, and 0 where the magnitude is below the
    threshold, for every threshold (so for every threshold that is not
    negative); on an array it does so entry by entry. *)
Theorem l0_keeps_at_or_above_threshold (threshold0 value : Qc) :
  (threshold0 <= Qcabs value -> l0 value threshold0 = value) /\
  (Qcabs value < threshold0 -> l0 value threshold0 = 0) /\
  (Qcabs value = threshold0 -> l0 value threshold0 = value) /\
  (forall x, np.rows (prox_l0 x threshold0) =
             map (map (fun v => l0 v threshold0)) (np.rows x)).
Proof.
  unfold l0. repeat split.
  - intro H. apply Qcleb_le in H. now rewrite H.
  - intro H. apply Qcleb_gt in H. now rewrite H.
  - intro H. assert (Hle : threshold0 <= Qcabs value)
      by (rewrite H; apply Qcle_refl).
    apply Qcleb_le in Hle. now rewrite Hle.
Qed.

(** ** Arrays entry by entry *)

Lemma qsum_app (l l' : list Qc) : qsum (l ++ l') = qsum l + qsum l'.
Proof.
  induction l as [ | a l IH ]; simpl.
  - now rewrite Qcplus_0_l.
  - rewrite IH. apply Qcplus_assoc.
Qed.

Lemma qsum_concat (ll : list (list Qc)) :
  qsum (concat ll) = qsum (map qsum ll).
Proof.
  induction ll as [ | l ll IH ]; simpl; [ reflexivity | ].
  now rewrite qsum_app, IH.
Qed.

Lemma zip_with_nth (A B C : Type) (f : A -> B -> C) (da : A) (db : B)
  (n : nat) :
  forall (l : list A) (l' : list B),
    length l = n -> length l' = n ->
    np.zip_with f l l' =
      map (fun i => f (nth i l da) (nth i l' db)) (seq 0 n).
Proof.
  induction n as [ | n IH ]; intros [ | a l ] [ | b l' ] Hl Hl';
    try discriminate; [ reflexivity | ].
  simpl. f_equal. rewrite <- seq_shift, map_map.
  apply IH; simpl in *; lia.
Qed.

Lemma map_nth_seq (A B : Type) (f : A -> B) (da : A) (l : list A) :
  map f l = map (fun i => f (nth i l da)) (seq 0 (length l)).
Proof.
  induction l as [ | a l IH ]; [ reflexivity | ].
  simpl. f_equal. now rewrite <- seq_shift, map_map.
Qed.

Lemma has_shape_row (r c : nat) (a : ndarray) (i : nat) :
  np.has_shape r c a -> (i < r)%nat -> length (nth i (np.rows a) []) = c.
Proof.
  intros (Hr & _ & Hall) Hi.
  rewrite Forall_forall in Hall. apply Hall, nth_In. lia.
Qed.

(** The rows of [f(a, b)] applied entry by entry to two arrays of one
    shape. *)
Lemma elementwise2_rows (f : Qc -> Qc -> Qc) (r c : nat) (a b : ndarray) :
  np.has_shape r c a -> np.has_shape r c b ->
  np.rows (np.elementwise2 f a b) =
    map (fun i => map (fun j => f (np.item a i j) (np.item b i j)) (seq 0 c))
      (seq 0 r).
Proof.
  intros Ha Hb. unfold np.elementwise2, np.item. simpl.
  rewrite (zip_with_nth _ [] [] (n := r)); [ | apply Ha | apply Hb ].
  apply map_ext_in. intros i Hi. apply in_seq in Hi.
  apply zip_with_nth.
  - apply (has_shape_row Ha). lia.
  - apply (has_shape_row Hb). lia.
Qed.

Lemma elementwise_rows (f : Qc -> Qc) (r c : nat) (a : ndarray) :
  np.has_shape r c a ->
  np.rows (np.elementwise f a) =
    map (fun i => map (fun j => f (np.item a i j)) (seq 0 c)) (seq 0 r).
Proof.
  intros Ha. unfold np.elementwise, np.item. simpl.
  destruct Ha as (Hr & Hc & Hall).
  rewrite (map_nth_seq _ []), Hr.
  apply map_ext_in. intros i Hi. apply in_seq in Hi.
  rewrite (map_nth_seq _ 0).
  rewrite Forall_forall in Hall. rewrite (Hall (nth i (np.rows a) [])).
  - reflexivity.
  - apply nth_In. lia.
Qed.

Lemma elementwise_shape (f : Qc -> Qc) (r c : nat) (a : ndarray) :
  np.has_shape r c a -> np.has_shape r c (np.elementwise f a).
Proof.
  intros (Hr & Hc & Hall). unfold np.has_shape, np.elementwise. simpl.
  rewrite length_map. repeat split; auto.
  rewrite Forall_forall in *. intros row Hin.
  apply in_map_iff in Hin. destruct Hin as (row0 & <- & Hin).
  rewrite length_map. auto.
Qed.

Lemma elementwise2_shape (f : Qc -> Qc -> Qc) (r c : nat) (a b : ndarray) :
  np.has_shape r c a -> np.has_shape r c b ->
  np.has_shape r c (np.elementwise2 f a b).
Proof.
  intros Ha Hb. unfold np.has_shape.
  rewrite (elementwise2_rows f Ha Hb). simpl.
  rewrite length_map, length_seq. repeat split; [ apply Ha | ].
  rewrite Forall_forall. intros row Hin.
  apply in_map_iff in Hin. destruct Hin as (i & <- & _).
  now rewrite length_map, length_seq.
Qed.

Lemma item_zero_matrix (r c i j : nat) : np.item (zero_matrix r c) i j = 0.
Proof.
  unfold np.item, zero_matrix. simpl.
  destruct (Nat.lt_ge_cases i r) as [Hi | Hi].
  - rewrite nth_repeat_lt by exact Hi.
    destruct (Nat.lt_ge_cases j c) as [Hj | Hj].
    + now rewrite nth_repeat_lt.
    + apply nth_overflow. now rewrite repeat_length.
  - rewrite (nth_overflow (repeat (repeat 0 c) r))
      by (now rewrite repeat_length).
    now destruct j.
Qed.

Lemma zeros_like_zero_matrix (r c : nat) (a : ndarray) :
  np.has_shape r c a -> np.zeros_like a = zero_matrix r c.
Proof.
  intros (Hr & Hc & Hall). unfold np.zeros_like, np.elementwise, zero_matrix.
  rewrite Hc. f_equal. subst r.
  induction (np.rows a) as [ | row rows IH ]; [ reflexivity | ].
  simpl. inversion Hall as [ | ? ? Hrow Hrest ]; subst. f_equal.
  - rewrite <- Hrow. clear.
    induction row as [ | v row IH ]; simpl; congruence.
  - apply IH. exact Hrest.
Qed.

Lemma zero_matrix_shape (r c : nat) : np.has_shape r c (zero_matrix r c).
Proof.
  unfold np.has_shape, zero_matrix. simpl. rewrite repeat_length.
  repeat split. rewrite Forall_forall. intros row Hin.
  apply repeat_spec in Hin. subst row. apply repeat_length.
Qed.

Lemma elementwise2_item (f : Qc -> Qc -> Qc) (r c : nat) (a b : ndarray)
  (i j : nat) :
  np.has_shape r c a -> np.has_shape r c b -> (i < r)%nat -> (j < c)%nat ->
  np.item (np.elementwise2 f a b) i j = f (np.item a i j) (np.item b i j).
Proof.
  intros Ha Hb Hi Hj. unfold np.item at 1.
  rewrite (elementwise2_rows f Ha Hb).
  rewrite (nth_indep _ [] (map (fun j0 => f (np.item a 0 j0) (np.item b 0 j0))
                             (seq 0 c)))
    by (rewrite length_map, length_seq; lia).
  rewrite (map_nth (fun i0 => map (fun j0 => f (np.item a i0 j0)
                                               (np.item b i0 j0)) (seq 0 c))
             (seq 0 r) 0%nat i).
  rewrite seq_nth by lia. simpl.
  rewrite (nth_indep _ 0 (f (np.item a i 0) (np.item b i 0)))
    by (rewrite length_map, length_seq; lia).
  rewrite (map_nth (fun j0 => f (np.item a i j0) (np.item b i j0))
             (seq 0 c) 0%nat j).
  rewrite seq_nth by lia. reflexivity.
Qed.

Lemma sum_square_subtract (r c : nat) (a b : ndarray) :
  np.has_shape r c a -> np.has_shape r c b ->
  np.sum (np.square (np.subtract a b)) = sum_sq_diff r c a b.
Proof.
  intros Ha Hb.
  assert (Hs : np.has_shape r c (np.subtract a b))
    by (apply elementwise2_shape; assumption).
  unfold np.sum, np.square.
  rewrite (elementwise_rows (fun v => v * v) Hs).
  rewrite qsum_concat, map_map. unfold sum_sq_diff.
  f_equal. apply map_ext_in. intros i Hi. apply in_seq in Hi.
  f_equal. apply map_ext_in. intros j Hj. apply in_seq in Hj.
  unfold np.subtract.
  rewrite (elementwise2_item Qcminus Ha Hb) by lia. reflexivity.
Qed.

Lemma sum_sq_diff_zero (r c : nat) (a : ndarray) :
  sum_sq_diff r c a (zero_matrix r c) = sum_sq r c a.
Proof.
  unfold sum_sq_diff, sum_sq.
  f_equal. apply map_ext. intro i. f_equal. apply map_ext. intro j.
  rewrite item_zero_matrix. ring.
Qed.

Section Criterion.

Context {L : Linalg}.

(** C2: on a history of arrays of one shape that ends with [this_coef],
    the convergence criterion is the sum, over every entry of the matrix,
    of the squared difference between [this_coef] and the entry before it;
    when [this_coef] is the only entry it is compared with the all-zero
    matrix, which gives the sum of its squared entries. *)
Theorem convergence_criterion_is_sum_of_squares (r c : nat) (s : SR3)
  (tr : list event) (older : list ndarray) (this_coef : ndarray) :
  history_ s = older ++ [this_coef] ->
  Forall (np.has_shape r c) (history_ s) ->
  _convergence_criterion (World s tr) =
    (inr (sum_sq_diff r c this_coef (last older (zero_matrix r c))),
     World s tr) /\
  (older = [] ->
   _convergence_criterion (World s tr) =
     (inr (sum_sq r c this_coef), World s tr)).
Proof.
  intros Hhist Hall. rewrite Hhist in Hall.
  apply Forall_app in Hall. destruct Hall as [Hold Hthis].
  inversion Hthis as [ | ? ? Hshape _ ]; subst.
  assert (Hrun :
    _convergence_criterion (World s tr) =
      (inr (sum_sq_diff r c this_coef (last older (zero_matrix r c))),
       World s tr)).
  { rewrite convergence_criterion_run, Hhist.
    destruct older as [ | u older ] using rev_ind.
    - cbn [app]. rewrite criterion_one. simpl.
      rewrite (zeros_like_zero_matrix Hshape).
      rewrite (sum_square_subtract Hshape (zero_matrix_shape r c)).
      reflexivity.
    - rewrite <- app_assoc. simpl. rewrite criterion_two, last_last.
      apply Forall_app in Hold. destruct Hold as [_ Hu].
      inversion Hu as [ | ? ? Hushape _ ]; subst.
      rewrite (sum_square_subtract Hshape Hushape). reflexivity. }
  split; [ exact Hrun | ].
  intros ->. rewrite Hrun. simpl. now rewrite sum_sq_diff_zero.
Qed.

End Criterion.

(** ** The normal equations *)

Lemma transpose_shape (n p : nat) (x : ndarray) :
  np.has_shape n p x -> np.has_shape p n (np.transpose x).
Proof.
  intros (Hn & Hp & _). unfold np.has_shape, np.transpose. simpl.
  rewrite length_map, length_seq. repeat split; auto.
  rewrite Forall_forall. intros row Hin.
  apply in_map_iff in Hin. destruct Hin as (j & <- & _).
  unfold np.column. now rewrite length_map.
Qed.

Lemma dot_shape (r m k : nat) (a b : ndarray) :
  np.has_shape r m a -> np.has_shape m k b -> np.has_shape r k (np.dot a b).
Proof.
  intros (Hr & _ & _) (_ & Hk & _). unfold np.has_shape, np.dot. simpl.
  rewrite length_map. repeat split; auto.
  rewrite Forall_forall. intros row Hin.
  apply in_map_iff in Hin. destruct Hin as (row0 & <- & _).
  now rewrite length_map, length_seq.
Qed.

Lemma diag_full_shape (p : nat) (v : Qc) :
  np.has_shape p p (np.diag (np.full p v)).
Proof.
  unfold np.has_shape, np.diag, np.full. simpl.
  rewrite !length_map, !length_seq, !repeat_length. repeat split.
  rewrite Forall_forall. intros row Hin.
  apply in_map_iff in Hin. destruct Hin as (i & <- & _).
  now rewrite length_map, length_seq.
Qed.

Lemma normal_matrix_shape (n p : nat) (x : ndarray) (v : Qc) :
  np.has_shape n p x -> np.has_shape p p (normal_matrix x v).
Proof.
  intro Hx. unfold normal_matrix, np.add.
  apply elementwise2_shape.
  - exact (dot_shape (transpose_shape Hx) Hx).
  - simpl. destruct Hx as (_ & -> & _). apply diag_full_shape.
Qed.

Lemma rhs_shape (n p k : nat) (x y v : ndarray) (s : SR3) :
  np.has_shape n p x -> np.has_shape n k y -> np.has_shape p k v ->
  np.has_shape p k (rhs s (np.dot (np.transpose x) y) v).
Proof.
  intros Hx Hy Hv. unfold rhs, np.add, np.true_divide.
  apply elementwise2_shape.
  - exact (dot_shape (transpose_shape Hx) Hy).
  - apply elementwise_shape. exact Hv.
Qed.

Lemma nth_map_seq (A : Type) (f : nat -> A) (d : A) (n i : nat) :
  (i < n)%nat -> nth i (map f (seq 0 n)) d = f i.
Proof.
  intro Hi.
  rewrite (nth_indep _ d (f 0%nat)) by (rewrite length_map, length_seq; lia).
  rewrite (map_nth f (seq 0 n) 0%nat i). now rewrite seq_nth.
Qed.

Lemma normal_matrix_item (n p : nat) (x : ndarray) (v : Qc) (i j : nat) :
  np.has_shape n p x -> (i < p)%nat -> (j < p)%nat ->
  np.item (normal_matrix x v) i j =
    gram x i j + (if Nat.eqb i j then 1 / v else 0).
Proof.
  intros Hx Hi Hj. unfold normal_matrix, np.add.
  assert (Hp : np.ncols x = p) by apply Hx.
  rewrite elementwise2_item with (r := p) (c := p); auto.
  2:{ exact (dot_shape (transpose_shape Hx) Hx). }
  2:{ simpl. rewrite Hp. apply diag_full_shape. }
  f_equal.
  - unfold np.item, np.dot, np.transpose. simpl. rewrite Hp.
    rewrite map_map.
    rewrite (nth_map_seq _ [] Hi). now rewrite (nth_map_seq _ 0 Hj).
  - unfold np.item, np.diag, np.full. simpl.
    rewrite Hp, repeat_length.
    rewrite (nth_map_seq _ [] Hi). rewrite (nth_map_seq _ 0 Hj).
    now rewrite nth_repeat_lt.
Qed.

Section NormalEquations.

Context {L : Linalg} {LS : LinalgSolves L}.

(** C1: for [x] of [n] samples and [p] features, [y] of [k] targets, a
    sparse coefficient [v] of shape [p * k] and [nu > 0], the matrix that
    is factorized is the Gram matrix of [x] plus [1/nu] on the diagonal;
    the full-coefficient update returns the [w] that solves
    [M . w = x.T . y + v / nu] with the factorization it is handed; and a
    run of [_reduce] factorizes [M] once, before anything else, and every
    solve after it uses that factorization. *)
Theorem full_coef_update_solves_normal_equations (n p k : nat)
  (x y v : ndarray) (s : SR3) (tr : list event) (c : cho_t) :
  np.has_shape n p x -> np.has_shape n k y -> np.has_shape p k v ->
  0 < nu s ->
  cho_factor (normal_matrix x (nu s)) = Some c ->
  let m := normal_matrix x (nu s) in
  let x_transpose_y := np.dot (np.transpose x) y in
  (np.has_shape p p m /\
   forall i j, (i < p)%nat -> (j < p)%nat ->
     np.item m i j = gram x i j + (if Nat.eqb i j then 1 / nu s else 0)) /\
  (exists w_full,
      _update_full_coef c x_transpose_y v (World s tr) =
        (inr w_full,
         World (set_iters s (iters s + 1))
           (tr ++ [Solve c (rhs s x_transpose_y v)])) /\
      np.dot m w_full =
        np.add x_transpose_y (np.true_divide v (nu s))) /\
  (exists r w' rest,
      _reduce x y (World s tr) = (r, w') /\
      trace w' = tr ++ Factor m :: rest /\
      Forall (fun ev => match ev with
                        | Factor _ => False
                        | Solve c' _ => c' = c
                        | Warn _ _ => True
                        end) rest).
Proof.
  intros Hx Hy Hv Hnu Hc m x_transpose_y.
  split; [ | split ].
  - split; [ exact (normal_matrix_shape (nu s) Hx) | ].
    intros i j Hi Hj. exact (normal_matrix_item (nu s) Hx Hi Hj).
  - exists (cho_solve c (rhs s x_transpose_y v)).
    split; [ apply update_full_coef_run | ].
    exact (cho_solve_solves (normal_matrix_shape (nu s) Hx)
             (rhs_shape s Hx Hy Hv) Hc).
  - destruct (for_range_spec (Z.to_nat (max_iter s)) c x_transpose_y
                (coef_ s) None (loop_entry x s tr))
      as (e & v' & ow' & w1 & snaps & solves & Hloop & Hpost).
    destruct Hpost as [_ _ _ _ _ _ Htr _ Hs _ _ _]. simpl in Htr.
    rewrite reduce_run with (c := c) (3 := Hloop);
      [ | exact (Qclt_neq_0 Hnu) | exact Hc ].
    assert (Hsolves :
      Forall (fun ev => match ev with
                        | Factor _ => False
                        | Solve c' _ => c' = c
                        | Warn _ _ => True
                        end) solves).
    { eapply Forall_impl; [ | exact Hs ].
      intros ev (b & ->). reflexivity. }
    destruct ow' as [ w_full | ]; do 2 eexists;
      exists (solves ++ match e with
                        | Converged => []
                        | Exhausted => [convergence_warning (self w1)]
                        end);
      (split; [ reflexivity | ]);
      (split;
       [ simpl; rewrite Htr, <- app_assoc; simpl;
         destruct e; simpl; rewrite <- ?app_assoc, ?app_nil_r; reflexivity
       | apply Forall_app; split; [ exact Hsolves | ];
         destruct e; repeat constructor ]).
Qed.

End NormalEquations.

(** ** The single-feature instance meets the contract *)

Lemma Linalg_1_solves : LinalgSolves Linalg_1.
Proof.
  intros n k [nc rs] [kb rb] c Ha Hb Hc.
  unfold cho_factor, Linalg_1, cho_factor_1 in Hc. simpl in Hc.
  destruct nc as [ | [ | nc ] ]; try discriminate.
  destruct rs as [ | [ | d [ | d' row ] ] [ | row' rs ] ]; try discriminate.
  destruct (Qcltb 0 d) eqn:Hd; [ | discriminate ].
  injection Hc as <-. apply Qcltb_lt in Hd.
  destruct Ha as (Hn & _ & _). simpl in Hn. subst n.
  destruct Hb as (Hr & Hk & Hall). simpl in Hr, Hk, Hall. subst kb.
  destruct rb as [ | row [ | row' rb ] ]; try discriminate.
  inversion Hall as [ | ? ? Hlen _ ]; subst.
  unfold cho_solve, Linalg_1, np.dot, np.true_divide, np.elementwise,
    np.column. simpl.
  f_equal. f_equal.
  transitivity (map (fun j => nth j row 0) (seq 0 (length row))).
  2:{ symmetry. rewrite <- (map_id row) at 1.
      apply (map_nth_seq (fun v => v) 0). }
  apply map_ext_in. intros j Hj. apply in_seq in Hj.
  unfold np.inner. simpl.
  rewrite (nth_indep _ 0 (0 / d)) by (rewrite length_map; lia).
  rewrite (map_nth (fun v => v / d) row 0 j).
  field. exact (Qclt_neq_0 Hd).
Qed.

Lemma guessing_validated (n : Z) (guess : ndarray) :
  (0 < n)%Z -> validated (guessing n guess).
Proof.
  intro Hn. unfold guessing, default_optimizer, __init__. simpl.
  destruct (n <=? 0)%Z eqn:E; [ apply Z.leb_le in E; lia | ].
  repeat split; try exact Hn; vm_compute; congruence.
Qed.

(** ** The statements at concrete inputs *)

Lemma full_coef_update_witness :
  let s := guessing 30 (scalar 1) in
  exists w_full,
    np.dot (normal_matrix (scalar 1) (nu s)) w_full =
      np.add (np.dot (np.transpose (scalar 1)) (scalar (qc 2 1)))
        (np.true_divide (scalar 1) (nu s)).
Proof.
  intro s.
  destruct (@full_coef_update_solves_normal_equations Linalg_1
              Linalg_1_solves 1 1 1 (scalar 1) (scalar (qc 2 1)) (scalar 1)
              s [] (factor_1 (scalar 1) s))
    as (_ & (w_full & _ & Hw) & _).
  - repeat split; repeat constructor.
  - repeat split; repeat constructor.
  - repeat split; repeat constructor.
  - vm_compute. reflexivity.
  - vm_compute. reflexivity.
  - exists w_full. exact Hw.
Defined.

Lemma convergence_criterion_witness :
  let a := np.array 2 [[1; qc 2 1]] in
  let b := np.array 2 [[qc 3 1; qc 5 1]] in
  let s := set_history_ (default_optimizer 30) [a; b] in
  _convergence_criterion (L := Linalg_1) (World s []) =
    (inr (sum_sq_diff 1 2 b a), World s []).
Proof.
  intros a b s.
  apply (@convergence_criterion_is_sum_of_squares Linalg_1 1 2 s [] [a] b).
  - reflexivity.
  - repeat constructor.
Defined.

Lemma reduce_exit_witness :
  exists e w' crit,
    _reduce (L := Linalg_1) (scalar 1) (scalar (qc 2 1))
      (World (guessing 30 (scalar 1)) []) = (inr e, w') /\
    _convergence_criterion w' = (inr crit, w').
Proof.
  destruct (@reduce_exit_matches_criterion Linalg_1 (scalar 1)
              (scalar (qc 2 1)) (guessing 30 (scalar 1)) []
              (factor_1 (scalar 1) (guessing 30 (scalar 1))))
    as (e & w' & crit & Hrun & Hcrit & _).
  - apply guessing_validated. reflexivity.
  - vm_compute. reflexivity.
  - exists e, w', crit. split; assumption.
Defined.

Lemma exhausted_reduce_witness :
  exists w',
    _reduce (L := Linalg_1) (scalar 1) (scalar (qc 2 1))
      (World (guessing 2 (scalar 1)) []) = (inr Exhausted, w') /\
    coef_ (self w') = loop_of_two_v /\
    coef_full_ (self w') = loop_of_two_ow.
Proof.
  destruct (@exhausted_reduce_warns_and_stores Linalg_1 (scalar 1)
              (scalar (qc 2 1)) (guessing 2 (scalar 1)) []
              (factor_1 (scalar 1) (guessing 2 (scalar 1))) Exhausted
              loop_of_two_v loop_of_two_ow (snd loop_of_two))
    as (w_full & w' & Hout & Hrun & Hv & Hw & _).
  - apply guessing_validated. reflexivity.
  - vm_compute. reflexivity.
  - vm_compute. reflexivity.
  - exists w'. rewrite Hout. repeat split; assumption.
Defined.

Lemma history_length_witness :
  let run := _reduce (L := Linalg_1) (scalar 1) (scalar (qc 2 1))
               (World (guessing 30 (scalar 1)) []) in
  Z.of_nat (length (history_ (self (snd run)))) = iters (self (snd run)) /\
  (iters (self (snd run)) <= Z.max 0 30)%Z.
Proof.
  intro run.
  apply (@history_length_counts_iterations Linalg_1 (scalar 1)
           (scalar (qc 2 1)) (guessing 30 (scalar 1)) []
           (fst run) (snd run)).
  - vm_compute. reflexivity.
  - reflexivity.
  - reflexivity.
Defined.

Lemma reduce_with_one_iteration_witness :
  exists e w',
    _reduce (L := Linalg_1) (scalar 1) (scalar (qc 2 1))
      (World (guessing 1 (scalar 1)) []) = (inr e, w') /\
    length (history_ (self w')) = 1%nat /\
    iters (self w') = 1%Z.
Proof.
  destruct (@reduce_with_one_iteration Linalg_1 (scalar 1) (scalar (qc 2 1))
              (guessing 1 (scalar 1)) []
              (factor_1 (scalar 1) (guessing 1 (scalar 1))))
    as (e & w' & crit & Hrun & Hhist & Hit & _).
  - apply guessing_validated. reflexivity.
  - reflexivity.
  - vm_compute. reflexivity.
  - exists e, w'. rewrite Hhist. repeat split; assumption.
Defined.

(** C8 fails as stated: with [max_iter = 1], [x = 1], [y = 0] and the
    initial guess 0, the only iteration gives the zero coefficient, the
    criterion is 0, below [tol], and the loop is left by [break]: the exit
    is Converged and no warning is emitted.  This is so on an empty history
    and on a history that holds the initial guess. *)
Lemma one_iteration_can_converge :
  let s := guessing 1 (scalar 0) in
  let run := _reduce (L := Linalg_1) (scalar 1) (scalar 0) (World s []) in
  let run' := _reduce (L := Linalg_1) (scalar 1) (scalar 0)
                (World (set_history_ s [scalar 0]) []) in
  max_iter s = 1%Z /\ history_ s = [] /\
  fst run = inr Converged /\
  fst run <> inr Exhausted /\
  map kind_of (trace (snd run)) = [Factored; Solved] /\
  length (history_ (self (snd run))) = 1%nat /\
  fst run' = inr Converged /\
  map kind_of (trace (snd run')) = [Factored; Solved].
Proof.
  vm_compute. repeat split; discriminate.
Qed.



Lemma reduce_binds_full_coefficient_witness :
  let run := _reduce (L := Linalg_1) (scalar 1) (scalar (qc 2 1))
               (World (guessing 30 (scalar 1)) []) in
  fst run <> inl UnboundLocalError.
Proof.
  intro run.
  apply (@reduce_binds_full_coefficient Linalg_1 (qc 1 10) 1 (qc 1 100000)
           "l0" 30 (default_optimizer 30) (guessing 30 (scalar 1))
           (scalar 1) (scalar (qc 2 1)) [] (fst run) (snd run)).
  - vm_compute. reflexivity.
  - repeat split.
  - vm_compute. reflexivity.
Defined.

(** ** Remarks *)

(** The construction-time scenarios of the spec. *)
Example init_rejects :
  __init__ (qc (-1) 1) 1 (qc 1 100000) "l0" 30 =
    inl (ValueError "threshold cannot be negative") /\
  __init__ (qc 1 10) 0 (qc 1 100000) "l0" 30 =
    inl (ValueError "nu must be positive") /\
  __init__ (qc 1 10) 1 (qc 1 100000) "l0" 0 =
    inl (ValueError "max_iter must be positive") /\
  __init__ (qc 1 10) 1 (qc 1 100000) "unknown" 30 =
    inl (UnknownOperator "unknown").
Proof. repeat split. Qed.

(** Without the guard on [max_iter] the loop body would not run and the
    assignment after the loop would read an unbound name. *)
Example reduce_without_iterations :
  fst (_reduce (L := Linalg_1) (scalar 1) (scalar (qc 2 1))
         (World (mkSR3 (qc 1 10) 1 (qc 1 100000) "l0" prox_l0 0 0 []
                   (scalar 1) None) [])) =
    inl UnboundLocalError.
Proof. vm_compute. reflexivity. Qed.

(** [_reduce] reads the last entry of the history it finds: started on a
    history that ends with the first snapshot, the same optimizer, data and
    guess stop after one iteration, where an empty history lets them run
    nine. *)
Example reduce_reads_prior_history :
  let s := guessing 30 (scalar 1) in
  let fresh_run := _reduce (L := Linalg_1) (scalar 1) (scalar (qc 2 1))
                     (World s []) in
  let later_run := _reduce (L := Linalg_1) (scalar 1) (scalar (qc 2 1))
                     (World (set_history_ s [scalar (qc 3 2)]) []) in
  iters (self (snd fresh_run)) = 9%Z /\
  iters (self (snd later_run)) = 1%Z /\
  length (history_ (self (snd later_run))) = 2%nat.
Proof. vm_compute. repeat split. Qed.

(** ** The loop as the orbit of one step *)

Section Orbit.

Context {L : Linalg}.

Lemma orbit_ext (k : nat) (s s' : SR3) (c : cho_t) (xty : ndarray) :
  prox s' = prox s -> nu s' = nu s -> threshold s' = threshold s ->
  forall v, orbit k s' c xty v = orbit k s c xty v.
Proof.
  intros Hp Hn Ht. induction k as [ | k IH ]; intro v; [ reflexivity | ].
  simpl. unfold sr3_step, rhs. rewrite Hp, Hn, Ht. f_equal. apply IH.
Qed.

Lemma last_cons (A : Type) (a d : A) (l : list A) :
  last (a :: l) d = last l a.
Proof.
  revert a d. induction l as [ | b l IH ]; intros a d; [ reflexivity | ].
  change (last (a :: b :: l) d) with (last (b :: l) d).
  rewrite !IH. reflexivity.
Qed.


Lemma for_range_orbit (n : nat) (c : cho_t) (xty : ndarray) :
  forall (v : ndarray) (ow : option ndarray) (s : SR3) (tr : list event),
  exists e v' ow' w' k,
    for_range n c xty v ow (World s tr) = (inr (e, v', ow'), w') /\
    orbit_post n c xty v ow s tr e v' ow' w' k.
Proof.
  induction n as [ | n IH ]; intros v ow s tr.
  - exists Exhausted, v, ow, (World s tr), 0%nat.
    split; [ reflexivity | ].
    constructor; simpl; rewrite ?app_nil_r, ?Z.add_0_r; auto; try lia;
      try discriminate.
  - rewrite for_range_step. cbv zeta.
    fold (sr3_step s c xty v).
    set (v1 := sr3_step s c xty v).
    set (b := rhs s xty v).
    destruct (criterion_snoc (history_ s) v1) as [crit Hcrit].
    rewrite Hcrit.
    destruct (Qcltb crit (tol s)) eqn:Htest.
    + exists Converged, v1, (Some (cho_solve c b)). eexists. exists 1%nat.
      split; [ reflexivity | ].
      constructor; simpl; auto; try lia; try discriminate.
      * now rewrite map_app.
      * intros _. eexists. reflexivity.
    + destruct (IH v1 (Some (cho_solve c b))
                  (set_history_ (set_iters s (iters s + 1))
                     (history_ s ++ [v1]))
                  (tr ++ [Solve c b]))
        as (e & v' & ow' & w' & k & Hrun & Hpost).
      exists e, v', ow', w', (S k).
      split; [ exact Hrun | ].
      destruct Hpost as [Hh Hi Hb Ht Hk Hl Hn Hs He Hc Hj].
      simpl in Hh, Hi, Ht, Hj.
      assert (Hext : forall j u,
                 orbit j (set_history_ (set_iters s (iters s + 1))
                            (history_ s ++ [v1])) c xty u =
                 orbit j s c xty u)
        by (intros; apply orbit_ext; reflexivity).
      rewrite Hext in Hh, Hl.
      constructor; simpl; fold v1; auto; try lia; try discriminate.
      * rewrite Hh, <- app_assoc. reflexivity.
      * rewrite Hk, map_app, <- app_assoc. reflexivity.
      * rewrite Hl. destruct (orbit k s c xty v1) as [ | u l ];
          [ reflexivity | ].
        now rewrite !last_cons.
      * intros _. destruct k as [ | k ].
        -- destruct (Hn eq_refl) as [_ ->]. eexists. reflexivity.
        -- apply Hs. lia.
      * intros [ | [ | j ] ] Hlt; [ lia | | ].
        -- exists crit. simpl. split; [ exact Hcrit | ].
           now apply Qcltb_ge.
        -- destruct (Hj (S j)) as (cj & Hcj & Hle); [ lia | ].
           exists cj. split; [ | exact Hle ].
           rewrite Hext, <- app_assoc in Hcj. exact Hcj.
Qed.

End Orbit.

(** ** Every run of [_reduce], case by case *)

Section Anatomy.

Context {L : Linalg}.

Lemma set_coef_same (s : SR3) : set_coef_ s (coef_ s) = s.
Proof. destruct s; reflexivity. Qed.

Lemma reduce_anatomy (x y : ndarray) (s : SR3) (tr : list event) :
  let m := normal_matrix x (nu s) in
  let xty := np.dot (np.transpose x) y in
  let run := _reduce x y (World s tr) in
  (nu s = 0 /\ run = (inl ZeroDivisionError, World s tr)) \/
  (nu s <> 0 /\ cho_factor m = None /\
   run = (inl LinAlgError, World s (tr ++ [Factor m]))) \/
  (nu s <> 0 /\ (max_iter s <= 0)%Z /\
   exists c, cho_factor m = Some c /\
     run = (inl UnboundLocalError,
            World s (tr ++ [Factor m; convergence_warning s]))) \/
  (nu s <> 0 /\ (0 < max_iter s)%Z /\
   exists c e w1 v' w_full k solves crit,
     cho_factor m = Some c /\ (0 < k)%nat /\
     orbit_post (Z.to_nat (max_iter s)) c xty (coef_ s) None s
       (tr ++ [Factor m]) e v' (Some w_full) w1 k /\
     same_hyperparameters s (self w1) /\
     trace w1 = (tr ++ [Factor m]) ++ solves /\
     criterion (history_ (self w1)) = Some crit /\
     (e = Converged -> crit < tol s) /\
     (e = Exhausted -> tol s <= crit) /\
     run = (inr e,
            World (set_coef_full_ (set_coef_ (self w1) v') w_full)
              (warned e s (trace w1)))).
Proof.
  intros m xty run. unfold run.
  destruct (Qc_eq_dec (nu s) 0) as [Hnu | Hnu].
  { left. split; [ exact Hnu | ]. now apply reduce_zero_nu. }
  right.
  destruct (cho_factor m) as [c | ] eqn:Hc.
  2:{ left. repeat split; auto. now apply reduce_not_factorized. }
  right.
  destruct (for_range_orbit (Z.to_nat (max_iter s)) c xty (coef_ s) None s
              (tr ++ [Factor m]))
    as (e & v' & ow' & w1 & k & Hrun & Hpost).
  destruct (for_range_spec (Z.to_nat (max_iter s)) c xty (coef_ s) None
              (World s (tr ++ [Factor m])))
    as (e0 & v0 & ow0 & w0 & snaps & solves & Hrun0 & Hpost0).
  rewrite Hrun in Hrun0. injection Hrun0 as <- <- <- <-.
  rewrite reduce_run with (c := c) (3 := Hrun); [ | exact Hnu | exact Hc ].
  destruct (Z.le_gt_cases (max_iter s) 0) as [Hmax | Hmax].
  - left. repeat split; auto. exists c. split; [ reflexivity | ].
    assert (Hk : k = 0%nat).
    { pose proof (op_bound Hpost) as Hb. lia. }
    destruct (op_none Hpost Hk) as [-> ->].
    rewrite (op_last Hpost), Hk. simpl.
    assert (He : e = Exhausted).
    { destruct e; [ | reflexivity ].
      pose proof (op_converged Hpost eq_refl). lia. }
    subst e. simpl. rewrite set_coef_same, <- app_assoc. reflexivity.
  - right. repeat split; auto.
    assert (Hk : (0 < k)%nat).
    { destruct e.
      - exact (op_converged Hpost eq_refl).
      - rewrite (op_exhausted Hpost eq_refl). lia. }
    destruct (op_some Hpost Hk) as [w_full ->].
    destruct Hpost0 as [Hh _ _ Hhist _ _ Htr _ _ He _ _].
    simpl in Hh, Hhist, Htr, He.
    assert (Hne : snaps <> []).
    { intro E. subst snaps. rewrite (op_history Hpost) in Hhist.
      apply app_inv_head in Hhist. destruct k; [ lia | discriminate ]. }
    assert (Hcrit : exists crit,
               criterion (history_ (self w1)) = Some crit /\
               (e = Converged -> crit < tol s) /\
               (e = Exhausted -> tol s <= crit)).
    { destruct e.
      - destruct He as (_ & crit & H1 & H2).
        exists crit. repeat split; auto. discriminate.
      - destruct He as (_ & Hge). destruct (Hge Hne) as (crit & H1 & H2).
        exists crit. repeat split; auto. discriminate. }
    destruct Hcrit as (crit & Hcrit & Hlt & Hge).
    exists c, e, w1, v', w_full, k, solves, crit.
    split; [ reflexivity | ]. split; [ exact Hk | ].
    split; [ exact Hpost | ]. split; [ exact Hh | ].
    split; [ exact Htr | ]. split; [ exact Hcrit | ].
    split; [ exact Hlt | ]. split; [ exact Hge | ].
    f_equal. f_equal. destruct e; simpl; [ reflexivity | ].
    unfold convergence_warning.
    destruct Hh as (_ & _ & _ & _ & ->). reflexivity.
Qed.

End Anatomy.

(** ** Further properties of [_reduce] *)

Section Further.

Context {L : Linalg}.


(** X2: a run of [_reduce] that raises ZeroDivisionError, LinAlgError or
    UnboundLocalError leaves the optimizer object exactly as it found it:
    the first two are raised before the loop, the third after a loop that
    never ran, so no coefficient, snapshot or counter has changed. *)
Theorem reduce_failure_keeps_object (x y : ndarray) (s : SR3)
  (tr : list event) (e : exn) :
  fst (_reduce x y (World s tr)) = inl e ->
  e = ZeroDivisionError \/ e = LinAlgError \/ e = UnboundLocalError ->
  self (snd (_reduce x y (World s tr))) = s.
Proof.
  intros Hraise _. revert Hraise.
  destruct (reduce_anatomy x y s tr)
    as [ (_ & ->) | [ (_ & _ & ->) | [ (_ & _ & c & _ & ->)
       | (_ & _ & c & e0 & w1 & v' & w_full & k & solves & crit & _ & _
          & _ & _ & _ & _ & _ & _ & ->) ] ] ];
    simpl; try reflexivity.
  discriminate.
Qed.

(** X3: however a run of [_reduce] ends, the five hyperparameters and the
    thresholder name of the object are what they were. *)
Theorem reduce_keeps_hyperparameters (x y : ndarray) (s : SR3)
  (tr : list event) :
  let s' := self (snd (_reduce x y (World s tr))) in
  threshold s' = threshold s /\ nu s' = nu s /\ tol s' = tol s /\
  prox s' = prox s /\ max_iter s' = max_iter s /\
  thresholder s' = thresholder s.
Proof.
  intro s'. unfold s'.
  destruct (reduce_anatomy x y s tr)
    as [ (_ & ->) | [ (_ & _ & ->) | [ (_ & _ & c & _ & ->)
       | (_ & _ & c & e0 & w1 & v' & w_full & k & solves & crit & _ & _
          & Hpost & Hh & _ & _ & _ & _ & ->) ] ] ];
    simpl; try (repeat split; reflexivity).
  destruct Hh as (H1 & H2 & H3 & H4 & H5).
  pose proof (op_thresholder Hpost) as H6.
  repeat split; assumption.
Qed.

(** X4: a run of [_reduce] keeps what was emitted before it and emits, in
    this order, one factorization, one solve for each iteration it counts,
    and one warning exactly when the loop was not left by [break]; nothing
    is emitted when [nu] is zero, and only the factorization when it
    fails. *)
Theorem reduce_emits_one_solve_per_iteration (x y : ndarray) (s : SR3)
  (tr : list event) :
  let run := _reduce x y (World s tr) in
  exists (k : nat) (ev : list event),
    iters (self (snd run)) = (iters s + Z.of_nat k)%Z /\
    trace (snd run) = tr ++ ev /\
    map kind_of ev = emitted_kinds (fst run) k.
Proof.
  intro run. unfold run.
  destruct (reduce_anatomy x y s tr)
    as [ (_ & ->) | [ (_ & _ & ->) | [ (_ & _ & c & _ & ->)
       | (_ & _ & c & e & w1 & v' & w_full & k & solves & crit & _ & _
          & Hpost & _ & Htr & _ & _ & _ & ->) ] ] ]; simpl.
  - exists 0%nat, []. rewrite app_nil_r, Z.add_0_r. repeat split.
  - exists 0%nat. eexists. rewrite Z.add_0_r. repeat split.
  - exists 0%nat. eexists. rewrite Z.add_0_r. repeat split.
  - pose proof (op_kinds Hpost) as Hk. pose proof (op_iters Hpost) as Hi.
    rewrite Htr, !map_app in Hk. apply app_inv_head in Hk.
    exists k.
    exists (Factor (normal_matrix x (nu s)) :: solves ++
              match e with
              | Converged => []
              | Exhausted => [convergence_warning s]
              end).
    split; [ exact Hi | ]. split.
    + rewrite Htr. destruct e; simpl; rewrite <- ?app_assoc; simpl;
        rewrite ?app_nil_r; reflexivity.
    + destruct e; simpl; rewrite ?map_app, ?app_nil_r, Hk; reflexivity.
Qed.

(** X5: when the factorization succeeds, the snapshots that a run of
    [_reduce] appends are the orbit of the initial guess under one turn of
    the alternation (a solve, then the proximal operator), as many of them
    as iterations were counted, and the sparse coefficient left in the
    object is the last of them, or the guess itself when there is none. *)
Theorem reduce_history_is_orbit (x y : ndarray) (s : SR3) (tr : list event)
  (c : cho_t) :
  nu s <> 0 ->
  cho_factor (normal_matrix x (nu s)) = Some c ->
  let xty := np.dot (np.transpose x) y in
  let s' := self (snd (_reduce x y (World s tr))) in
  exists k : nat,
    history_ s' = history_ s ++ orbit k s c xty (coef_ s) /\
    iters s' = (iters s + Z.of_nat k)%Z /\
    coef_ s' = last (orbit k s c xty (coef_ s)) (coef_ s).
Proof.
  intros Hnu Hc xty s'. unfold s'.
  destruct (reduce_anatomy x y s tr)
    as [ (Hz & _) | [ (_ & Hn & _) | [ (_ & _ & c0 & _ & ->)
       | (_ & _ & c0 & e & w1 & v' & w_full & k & solves & crit & Hc0 & _
          & Hpost & _ & _ & _ & _ & _ & ->) ] ] ];
    try congruence; simpl.
  - exists 0%nat. simpl. rewrite app_nil_r, Z.add_0_r. repeat split.
  - assert (c0 = c) by congruence. subst c0.
    exists k. split; [ exact (op_history Hpost) | ].
    split; [ exact (op_iters Hpost) | exact (op_last Hpost) ].
Qed.

(** X6: when the factorization succeeds, the loop of [_reduce] stops at the
    first iteration whose convergence criterion is below [tol]: after every
    earlier iteration the criterion was at least [tol]; on a Converged exit
    the criterion of the last iteration is below [tol], and on an Exhausted
    exit all [max_iter] iterations have run without that. *)
Theorem reduce_stops_at_first_small_criterion (x y : ndarray) (s : SR3)
  (tr : list event) (c : cho_t) :
  nu s <> 0 ->
  cho_factor (normal_matrix x (nu s)) = Some c ->
  let xty := np.dot (np.transpose x) y in
  let run := _reduce x y (World s tr) in
  exists k : nat,
    history_ (self (snd run)) = history_ s ++ orbit k s c xty (coef_ s) /\
    (forall j, (0 < j < k)%nat ->
       exists crit,
         criterion (history_ s ++ orbit j s c xty (coef_ s)) = Some crit /\
         tol s <= crit) /\
    (fst run = inr Converged ->
     exists crit,
       criterion (history_ s ++ orbit k s c xty (coef_ s)) = Some crit /\
       crit < tol s) /\
    (fst run = inr Exhausted ->
     Z.of_nat k = max_iter s /\
     exists crit,
       criterion (history_ s ++ orbit k s c xty (coef_ s)) = Some crit /\
       tol s <= crit).
Proof.
  intros Hnu Hc xty run. unfold run.
  destruct (reduce_anatomy x y s tr)
    as [ (Hz & _) | [ (_ & Hn & _) | [ (_ & _ & c0 & _ & ->)
       | (_ & Hmax & c0 & e & w1 & v' & w_full & k & solves & crit & Hc0 & _
          & Hpost & _ & _ & Hcrit & Hlt & Hge & ->) ] ] ];
    try congruence; simpl.
  - exists 0%nat. simpl. rewrite app_nil_r.
    repeat split; try discriminate. intros j Hj. lia.
  - assert (c0 = c) by congruence. subst c0.
    rewrite (op_history Hpost) in Hcrit.
    exists k. split; [ exact (op_history Hpost) | ].
    split; [ exact (op_earlier Hpost) | ].
    split.
    + intro E. injection E as ->. exists crit. auto.
    + intro E. injection E as ->.
      split; [ rewrite (op_exhausted Hpost eq_refl); lia | ].
      exists crit. auto.
Qed.

End Further.

(** ** Sums of squares *)

Lemma Qc_square_nonneg (x : Qc) : 0 <= x * x.
Proof.
  unfold Qcle. change (this 0) with 0%Q.
  change (this (x * x)) with (Qred (x * x)). rewrite Qred_correct.
  destruct (Qlt_le_dec x 0) as [Hneg | Hpos].
  - setoid_replace (x * x)%Q with ((- x) * (- x))%Q by ring.
    apply Qmult_le_0_compat;
      apply (Qopp_le_compat x 0), Qlt_le_weak, Hneg.
  - now apply Qmult_le_0_compat.
Qed.

Lemma qsum_nonneg (l : list Qc) :
  Forall (fun v => 0 <= v) l -> 0 <= qsum l.
Proof.
  induction 1 as [ | v l Hv _ IH ]; simpl.
  - apply Qcle_refl.
  - rewrite <- (Qcplus_0_l 0). now apply Qcplus_le_compat.
Qed.

Lemma qsum_zero (l : list Qc) :
  Forall (fun v => 0 <= v) l -> qsum l = 0 -> Forall (fun v => v = 0) l.
Proof.
  induction 1 as [ | v l Hv Hl IH ]; simpl; intro Hsum; constructor.
  - apply Qcle_antisym; [ | exact Hv ].
    rewrite <- Hsum. rewrite <- (Qcplus_0_r v) at 1.
    apply Qcplus_le_compat; [ apply Qcle_refl | now apply qsum_nonneg ].
  - apply IH. apply Qcle_antisym; [ | now apply qsum_nonneg ].
    rewrite <- Hsum. rewrite <- (Qcplus_0_l (qsum l)) at 1.
    apply Qcplus_le_compat; [ exact Hv | apply Qcle_refl ].
Qed.

Lemma sum_square_nonneg (a : ndarray) : 0 <= np.sum (np.square a).
Proof.
  unfold np.sum, np.square, np.elementwise. simpl.
  apply qsum_nonneg.
  induction (np.rows a) as [ | row rows IH ]; simpl; [ constructor | ].
  apply Forall_app. split; [ | exact IH ].
  clear. induction row as [ | v row IH ]; simpl; constructor;
    [ apply Qc_square_nonneg | exact IH ].
Qed.

Lemma sum_square_subtract_self (v : ndarray) :
  np.sum (np.square (np.subtract v v)) = 0.
Proof.
  unfold np.sum, np.square, np.subtract, np.elementwise, np.elementwise2.
  simpl.
  induction (np.rows v) as [ | row rows IH ]; simpl; [ reflexivity | ].
  rewrite qsum_app, IH, Qcplus_0_r.
  clear. induction row as [ | u row IH ]; simpl; [ reflexivity | ].
  rewrite IH. ring.
Qed.

Lemma has_shape_ext (r c : nat) (a b : ndarray) :
  np.has_shape r c a -> np.has_shape r c b ->
  (forall i j, (i < r)%nat -> (j < c)%nat -> np.item a i j = np.item b i j) ->
  a = b.
Proof.
  intros Ha Hb Hitem.
  assert (Hra : forall i, (i < r)%nat -> length (nth i (np.rows a) []) = c)
    by (intros i Hi; exact (has_shape_row Ha Hi)).
  assert (Hrb : forall i, (i < r)%nat -> length (nth i (np.rows b) []) = c)
    by (intros i Hi; exact (has_shape_row Hb Hi)).
  destruct a as [ca ra], b as [cb rb].
  destruct Ha as (Hla & Hca & _), Hb as (Hlb & Hcb & _).
  simpl in *. subst ca cb. f_equal.
  apply (nth_ext ra rb [] []); [ congruence | ].
  intros i Hi. rewrite Hla in Hi.
  apply (nth_ext _ _ 0 0).
  - rewrite Hra, Hrb by exact Hi. reflexivity.
  - intros j Hj. rewrite Hra in Hj by exact Hi. exact (Hitem i j Hi Hj).
Qed.

Lemma sum_sq_diff_zero_iff (r c : nat) (a b : ndarray) :
  np.has_shape r c a -> np.has_shape r c b ->
  (sum_sq_diff r c a b = 0 <-> a = b).
Proof.
  intros Ha Hb. split.
  - intro Hsum. apply (has_shape_ext Ha Hb). intros i j Hi Hj.
    unfold sum_sq_diff in Hsum.
    apply qsum_zero in Hsum.
    2:{ rewrite Forall_forall. intros v Hin.
        apply in_map_iff in Hin. destruct Hin as (i0 & <- & _).
        apply qsum_nonneg. rewrite Forall_forall. intros u Hin.
        apply in_map_iff in Hin. destruct Hin as (j0 & <- & _).
        apply Qc_square_nonneg. }
    rewrite Forall_forall in Hsum.
    assert (Hrow : qsum (map (fun j0 =>
                                (np.item a i j0 - np.item b i j0) *
                                (np.item a i j0 - np.item b i j0))
                           (seq 0 c)) = 0).
    { apply Hsum. apply in_map_iff. exists i. split; [ reflexivity | ].
      apply in_seq. lia. }
    apply qsum_zero in Hrow.
    2:{ rewrite Forall_forall. intros u Hin.
        apply in_map_iff in Hin. destruct Hin as (j0 & <- & _).
        apply Qc_square_nonneg. }
    rewrite Forall_forall in Hrow.
    assert (Hsq : (np.item a i j - np.item b i j) *
                  (np.item a i j - np.item b i j) = 0).
    { apply Hrow. apply in_map_iff. exists j. split; [ reflexivity | ].
      apply in_seq. lia. }
    assert (Hd : np.item a i j - np.item b i j = 0).
    { destruct (Qcmult_integral _ _ Hsq); assumption. }
    transitivity (np.item a i j - np.item b i j + np.item b i j);
      [ ring | rewrite Hd; ring ].
  - intros <-. rewrite <- (sum_square_subtract Ha Ha).
    apply sum_square_subtract_self.
Qed.

(** ** Further properties of the criterion and of fixed points *)

Section Convergence.

Context {L : Linalg}.

Lemma orbit_fixed (k : nat) (s : SR3) (c : cho_t) (xty v : ndarray) :
  sr3_step s c xty v = v -> orbit k s c xty v = repeat v k.
Proof.
  intro Hfix. induction k as [ | k IH ]; [ reflexivity | ].
  simpl. rewrite Hfix. now rewrite IH.
Qed.

Lemma last_repeat (A : Type) (v : A) (k : nat) : last (repeat v k) v = v.
Proof.
  induction k as [ | k IH ]; [ reflexivity | ].
  simpl repeat. now rewrite last_cons.
Qed.

Lemma criterion_repeated (h : list ndarray) (v : ndarray) :
  criterion (h ++ [v; v]) = Some 0.
Proof. rewrite criterion_two. now rewrite sum_square_subtract_self. Qed.

(** X7: a sparse coefficient that one turn of the alternation maps to
    itself is returned unchanged by [_reduce]: the run completes, every
    snapshot it appends is that coefficient, and there are at most two of
    them; with [max_iter] at least 2 the exit is Converged, whatever the
    history held before. *)
Theorem reduce_returns_fixed_point (x y : ndarray) (s : SR3)
  (tr : list event) (c : cho_t) :
  validated s ->
  cho_factor (normal_matrix x (nu s)) = Some c ->
  sr3_step s c (np.dot (np.transpose x) y) (coef_ s) = coef_ s ->
  let run := _reduce x y (World s tr) in
  exists (e : loop_exit) (k : nat),
    fst run = inr e /\
    coef_ (self (snd run)) = coef_ s /\
    history_ (self (snd run)) = history_ s ++ repeat (coef_ s) k /\
    (1 <= k <= 2)%nat /\
    ((2 <= max_iter s)%Z -> e = Converged).
Proof.
  intros (_ & Hnu & Htol & Hmax) Hc Hfix run. unfold run.
  destruct (reduce_anatomy x y s tr)
    as [ (Hz & _) | [ (_ & Hn & _) | [ (_ & Hle & _)
       | (_ & _ & c0 & e & w1 & v' & w_full & k & solves & crit & Hc0 & Hk
          & Hpost & _ & _ & Hcrit & _ & Hge & ->) ] ] ];
    try congruence; try lia.
  { exfalso. exact (Qclt_neq_0 Hnu Hz). }
  assert (c0 = c) by congruence. subst c0.
  pose proof (op_history Hpost) as Hhist.
  pose proof (op_last Hpost) as Hlast.
  rewrite orbit_fixed in Hhist, Hlast by exact Hfix.
  rewrite last_repeat in Hlast.
  assert (Hk2 : (k <= 2)%nat).
  { destruct (Nat.le_gt_cases k 2) as [ H | H ]; [ exact H | exfalso ].
    destruct (op_earlier Hpost (j := 2)) as (cj & Hcj & Hlej); [ lia | ].
    rewrite orbit_fixed in Hcj by exact Hfix. simpl in Hcj.
    rewrite criterion_repeated in Hcj. injection Hcj as <-.
    exact (Qcle_not_lt _ _ Hlej Htol). }
  exists e, k. simpl.
  split; [ reflexivity | ]. split; [ exact Hlast | ].
  split; [ exact Hhist | ]. split; [ lia | ].
  intro Hmax2. destruct e; [ reflexivity | exfalso ].
  pose proof (op_exhausted Hpost eq_refl) as Hkn.
  assert (E : k = 2%nat) by lia. rewrite E in Hhist.
  rewrite Hhist in Hcrit. simpl in Hcrit.
  rewrite criterion_repeated in Hcrit. injection Hcrit as <-.
  exact (Qcle_not_lt _ _ (Hge eq_refl) Htol).
Qed.

(** X8: [_convergence_criterion] raises IndexError exactly on an empty
    history; on any other history it returns a value that is not negative;
    in both cases it changes neither the object nor the trace. *)
Theorem convergence_criterion_nonnegative (s : SR3) (tr : list event) :
  (history_ s = [] ->
   _convergence_criterion (World s tr) = (inl IndexError, World s tr)) /\
  (history_ s <> [] ->
   exists crit,
     _convergence_criterion (World s tr) = (inr crit, World s tr) /\
     0 <= crit).
Proof.
  rewrite convergence_criterion_run. split.
  - intros ->. reflexivity.
  - intro Hne. destruct (exists_last Hne) as (h & v & ->).
    rewrite criterion_snoc_last. eexists. split; [ reflexivity | ].
    apply sum_square_nonneg.
Qed.

(** X9: on a history whose last two entries have one shape, the
    convergence criterion is zero exactly when the last snapshot repeats
    the one before it. *)
Theorem convergence_criterion_zero_iff_repeat (r c : nat) (s : SR3)
  (tr : list event) (older : list ndarray) (u v : ndarray) :
  history_ s = older ++ [u; v] ->
  np.has_shape r c u -> np.has_shape r c v ->
  exists crit,
    _convergence_criterion (World s tr) = (inr crit, World s tr) /\
    (crit = 0 <-> v = u).
Proof.
  intros Hhist Hu Hv.
  rewrite convergence_criterion_run, Hhist, criterion_two.
  eexists. split; [ reflexivity | ].
  rewrite (sum_square_subtract Hv Hu).
  exact (sum_sq_diff_zero_iff Hv Hu).
Qed.

End Convergence.

(** ** The stored pair and the normal equations *)

Section HistoryOrbit.

Context {L : Linalg}.

Lemma reduce_history_orbit (x y : ndarray) (s : SR3) (tr : list event)
  (c : cho_t) :
  nu s <> 0 ->
  cho_factor (normal_matrix x (nu s)) = Some c ->
  exists k : nat,
    history_ (self (snd (_reduce x y (World s tr)))) =
      history_ s ++ orbit k s c (np.dot (np.transpose x) y) (coef_ s).
Proof.
  intros Hnu Hc.
  destruct (reduce_anatomy x y s tr)
    as [ (Hz & _) | [ (_ & Hn & _) | [ (_ & _ & c0 & _ & ->)
       | (_ & _ & c0 & e & w1 & v' & w_full & k & solves & crit & Hc0 & _
          & Hpost & _ & _ & _ & _ & _ & ->) ] ] ];
    try congruence; simpl.
  - exists 0%nat. simpl. now rewrite app_nil_r.
  - assert (c0 = c) by congruence. subst c0.
    exists k. exact (op_history Hpost).
Qed.

End HistoryOrbit.

Section Stored.

Context {L : Linalg} {LS : LinalgSolves L}.

Lemma orbit_shape (n p k : nat) (x y : ndarray) (s : SR3) (c : cho_t) :
  np.has_shape n p x -> np.has_shape n k y ->
  (forall b, np.has_shape p k b -> np.has_shape p k (cho_solve c b)) ->
  (forall a, np.has_shape p k a ->
             np.has_shape p k (prox s a (threshold s))) ->
  forall (j : nat) (v : ndarray),
    np.has_shape p k v ->
    Forall (np.has_shape p k)
      (orbit j s c (np.dot (np.transpose x) y) v).
Proof.
  intros Hx Hy Hsolve Hprox.
  induction j as [ | j IH ]; intros v Hv; simpl; constructor.
  - apply Hprox, Hsolve. exact (rhs_shape s Hx Hy Hv).
  - apply IH. apply Hprox, Hsolve. exact (rhs_shape s Hx Hy Hv).
Qed.

(** X10: for [x] of [n] samples and [p] features, [y] of [k] targets and an
    initial guess of shape [p * k], with a solver and a proximal operator
    that keep that shape, a run of [_reduce] that reaches its loop stores a
    full and a sparse coefficient of shape [p * k]; the full coefficient
    solves the normal equations [M . w = x.T . y + v_prev / nu] for the
    sparse coefficient [v_prev] that the last iteration started from, and
    the sparse coefficient is the proximal operator applied to it. *)
Theorem reduce_stores_solution (n p k : nat) (x y : ndarray) (s : SR3)
  (tr : list event) (c : cho_t) :
  np.has_shape n p x -> np.has_shape n k y -> np.has_shape p k (coef_ s) ->
  validated s ->
  cho_factor (normal_matrix x (nu s)) = Some c ->
  (forall b, np.has_shape p k b -> np.has_shape p k (cho_solve c b)) ->
  (forall a, np.has_shape p k a ->
             np.has_shape p k (prox s a (threshold s))) ->
  exists e w' w_full v_prev pre snaps,
    _reduce x y (World s tr) = (inr e, w') /\
    history_ (self w') = history_ s ++ snaps /\
    coef_ s :: snaps = pre ++ [v_prev; coef_ (self w')] /\
    coef_full_ (self w') = Some w_full /\
    coef_ (self w') = prox s w_full (threshold s) /\
    np.dot (normal_matrix x (nu s)) w_full =
      np.add (np.dot (np.transpose x) y) (np.true_divide v_prev (nu s)) /\
    np.has_shape p k w_full /\
    np.has_shape p k (coef_ (self w')).
Proof.
  intros Hx Hy Hv (_ & Hnu & _ & Hmax) Hc Hsolve Hprox.
  destruct (reduce_spec x y s tr (Qclt_neq_0 Hnu) Hmax Hc)
    as (e & w' & snaps & solves & Hrun & Hpost).
  destruct Hpost as [_ Hhist _ _ _ _ _ _ _
                       (pre & v_prev & w_full & Hsplit & Hcf & Hw & Hco)].
  destruct (reduce_history_orbit x y s tr (Qclt_neq_0 Hnu) Hc)
    as (j & Horbit).
  rewrite Hrun in Horbit. simpl in Horbit.
  rewrite Hhist in Horbit. apply app_inv_head in Horbit.
  assert (Hall : Forall (np.has_shape p k) (coef_ s :: snaps)).
  { constructor; [ exact Hv | ]. rewrite Horbit.
    apply orbit_shape with (n := n); assumption. }
  assert (Hprev : np.has_shape p k v_prev).
  { rewrite Hsplit in Hall. apply Forall_app in Hall.
    destruct Hall as [_ Hall]. now inversion Hall. }
  pose proof (rhs_shape s Hx Hy Hprev) as Hrhs.
  exists e, w', w_full, v_prev, pre, snaps.
  split; [ exact Hrun | ]. split; [ exact Hhist | ].
  split; [ exact Hsplit | ]. split; [ exact Hcf | ].
  split; [ exact Hco | ].
  split.
  { rewrite Hw.
    exact (cho_solve_solves (normal_matrix_shape (nu s) Hx) Hrhs Hc). }
  split.
  - rewrite Hw. now apply Hsolve.
  - rewrite Hco, Hw. now apply Hprox, Hsolve.
Qed.

End Stored.

(** ** The further statements at concrete inputs *)

Lemma reduce_failure_keeps_object_witness :
  let s := guessing 30 (np.array 1 [[1]; [1]]) in
  let x := np.array 2 [[1; 0]; [0; 1]] in
  let y := np.array 1 [[qc 2 1]; [qc 2 1]] in
  self (snd (_reduce (L := Linalg_1) x y (World s []))) = s.
Proof.
  intros s x y.
  apply (@reduce_failure_keeps_object Linalg_1 x y s [] LinAlgError).
  - vm_compute. reflexivity.
  - right. left. reflexivity.
Defined.

Lemma reduce_history_is_orbit_witness :
  let s := guessing 30 (scalar 1) in
  let xty := np.dot (np.transpose (scalar 1)) (scalar (qc 2 1)) in
  exists k : nat,
    history_ (self (snd (_reduce (L := Linalg_1) (scalar 1) (scalar (qc 2 1))
                           (World s [])))) =
      orbit (L := Linalg_1) k s (factor_1 (scalar 1) s) xty (scalar 1).
Proof.
  intros s xty.
  destruct (@reduce_history_is_orbit Linalg_1 (scalar 1) (scalar (qc 2 1))
              s [] (factor_1 (scalar 1) s))
    as (k & Hhist & _).
  - apply Qclt_neq_0. vm_compute. reflexivity.
  - vm_compute. reflexivity.
  - exists k. exact Hhist.
Defined.

Lemma reduce_stops_at_first_small_criterion_witness :
  let s := guessing 30 (scalar 1) in
  let xty := np.dot (np.transpose (scalar 1)) (scalar (qc 2 1)) in
  exists k : nat,
    forall j, (0 < j < k)%nat ->
      exists crit,
        criterion (orbit (L := Linalg_1) j s (factor_1 (scalar 1) s) xty
                     (scalar 1)) = Some crit /\
        tol s <= crit.
Proof.
  intros s xty.
  destruct (@reduce_stops_at_first_small_criterion Linalg_1 (scalar 1)
              (scalar (qc 2 1)) s [] (factor_1 (scalar 1) s))
    as (k & _ & Hearlier & _).
  - apply Qclt_neq_0. vm_compute. reflexivity.
  - vm_compute. reflexivity.
  - exists k. exact Hearlier.
Defined.

Lemma reduce_returns_fixed_point_witness :
  let s := guessing 30 (scalar 0) in
  coef_ (self (snd (_reduce (L := Linalg_1) (scalar 1) (scalar 0)
                      (World s [])))) = scalar 0.
Proof.
  intro s.
  destruct (@reduce_returns_fixed_point Linalg_1 (scalar 1) (scalar 0) s []
              (factor_1 (scalar 1) s))
    as (e & k & _ & Hcoef & _).
  - apply guessing_validated. reflexivity.
  - vm_compute. reflexivity.
  - vm_compute. reflexivity.
  - exact Hcoef.
Defined.

Lemma convergence_criterion_zero_iff_repeat_witness :
  let a := np.array 2 [[1; qc 2 1]] in
  let b := np.array 2 [[qc 3 1; qc 5 1]] in
  let s := set_history_ (default_optimizer 30) [a; b] in
  exists crit,
    _convergence_criterion (L := Linalg_1) (World s []) =
      (inr crit, World s []) /\
    (crit = 0 <-> b = a).
Proof.
  intros a b s.
  apply (@convergence_criterion_zero_iff_repeat Linalg_1 1 2 s [] [] a b).
  - reflexivity.
  - repeat split; repeat constructor.
  - repeat split; repeat constructor.
Defined.

Lemma reduce_stores_solution_witness :
  let s := guessing 30 (scalar 1) in
  exists e w' w_full,
    _reduce (L := Linalg_1) (scalar 1) (scalar (qc 2 1)) (World s []) =
      (inr e, w') /\
    coef_full_ (self w') = Some w_full /\
    np.has_shape 1 1 w_full.
Proof.
  intro s.
  destruct (@reduce_stores_solution Linalg_1 Linalg_1_solves 1 1 1
              (scalar 1) (scalar (qc 2 1)) s [] (factor_1 (scalar 1) s))
    as (e & w' & w_full & v_prev & pre & snaps & Hrun & _ & _ & Hcf & _ & _
        & Hshape & _).
  - repeat split; repeat constructor.
  - repeat split; repeat constructor.
  - repeat split; repeat constructor.
  - apply guessing_validated. reflexivity.
  - vm_compute. reflexivity.
  - intros b Hb. exact (elementwise_shape _ Hb).
  - intros a Ha. exact (elementwise_shape _ Ha).
  - exists e, w', w_full.
    split; [ exact Hrun | ]. split; [ exact Hcf | exact Hshape ].
Defined.
